(** * user_pods_k8s_backend: readiness signalling, event classifiers,
      pod metadata cache and user-derived resource names.

    A shallow embedding of the Go sources

    - package [util]      (ReadyChannel, CombineReadyChannels),
    - package [k8sclient] (WatchFor and the per-kind classifiers),
    - package [managed]   (User naming, getTmpFile, fillAllTmpFiles,
                           getSshPort, savePodCache / loadPodCache),

    followed by the properties established about them. *)

From Stdlib Require Import ZArith List String Ascii Bool Lia DecimalString.
From stdpp Require Import base option gmap strings.
Import ListNotations.

Local Open Scope nat_scope.

(* ===================================================================== *)
(** * Package util: ReadyChannel                                          *)
(* ===================================================================== *)

Module Util.

(** Goroutines are identified by natural numbers. *)
Definition gid := nat.

(** [type ReadyChannel struct { ch chan bool; receivedYet bool;
                                firstValue bool; mutex *sync.Mutex }].
    [ch] is made with capacity one, so its contents are an optional value.
    The mutex records which goroutine holds it ([None]: unlocked). *)
Record ReadyChannel : Type := mkRC {
  ch          : option bool;
  receivedYet : bool;
  firstValue  : bool;
  mutex       : option gid
}.

Definition set_ch (c : option bool) (t : ReadyChannel) : ReadyChannel :=
  mkRC c (receivedYet t) (firstValue t) (mutex t).
Definition set_receivedYet (b : bool) (t : ReadyChannel) : ReadyChannel :=
  mkRC (ch t) b (firstValue t) (mutex t).
Definition set_firstValue (b : bool) (t : ReadyChannel) : ReadyChannel :=
  mkRC (ch t) (receivedYet t) b (mutex t).
Definition set_mutex (m : option gid) (t : ReadyChannel) : ReadyChannel :=
  mkRC (ch t) (receivedYet t) (firstValue t) m.

(** The struct literal of [NewReadyChannel]: an empty buffered channel,
    [receivedYet: false], [firstValue: false] and a fresh mutex. *)
Definition emptyReadyChannel : ReadyChannel := mkRC None false false None.

(** [func (t *ReadyChannel) Send(value bool)]:
    [select { case t.ch <- value: default: }].  The send succeeds when the
    one-slot buffer is empty, and is dropped otherwise. *)
Definition Send (value : bool) (t : ReadyChannel) : ReadyChannel :=
  match ch t with
  | None => set_ch (Some value) t
  | Some _ => t
  end.

(** [t.mutex.Lock()] by goroutine [g]: [None] while another goroutine holds
    the mutex (the caller stays blocked). *)
Definition lock (g : gid) (t : ReadyChannel) : option ReadyChannel :=
  match mutex t with
  | None => Some (set_mutex (Some g) t)
  | Some _ => None
  end.

(** [t.mutex.Unlock()]. *)
Definition unlock (t : ReadyChannel) : ReadyChannel := set_mutex None t.

(** [<-t.ch]: [None] while the buffer is empty (the caller stays blocked). *)
Definition chan_recv (t : ReadyChannel) : option (bool * ReadyChannel) :=
  match ch t with
  | Some v => Some (v, set_ch None t)
  | None => None
  end.

(** [func (t *ReadyChannel) Receive() bool], run to completion by goroutine
    [g] with no other goroutine scheduled in between.  [None] means that the
    call cannot complete in the current state: it is blocked on the mutex or
    on the empty channel. *)
Definition Receive (g : gid) (t : ReadyChannel) : option (bool * ReadyChannel) :=
  match lock g t with
  | None => None
  | Some t1 =>
      if receivedYet t1 then Some (firstValue t1, unlock t1)
      else
        match chan_recv t1 with
        | None => None
        | Some (value, t2) =>
            let t3 := set_receivedYet true t2 in
            let t4 := set_firstValue value t3 in
            Some (value, unlock t4)
        end
  end.

(** The value a channel has been resolved to, if any: the recorded first
    value once some [Receive] has completed, the buffered value before. *)
Definition resolved (t : ReadyChannel) : option bool :=
  if receivedYet t then Some (firstValue t) else ch t.

(** ** Goroutines interleaved on one ReadyChannel *)

(** Where a goroutine stands inside [Receive]. *)
Inductive pc : Type :=
| Idle                  (* not inside Receive *)
| AtLock                (* at [t.mutex.Lock()] *)
| AtCheck               (* holds the mutex, at [if t.receivedYet] *)
| AtRecv                (* holds the mutex, at [value := <-t.ch] *)
| AtStore1 (value : bool) (* holds the mutex, at [t.receivedYet = true] *)
| AtStore2 (value : bool). (* holds the mutex, at [t.firstValue = value], then
                             returns [value]; the deferred Unlock runs *)

(** The channel, the goroutines using it, a logical clock, and the timer
    goroutine started by [NewReadyChannel] ([Some d]: sleeping until the
    clock reaches [d]; [None]: it has called [rc.Send(false)] and ended). *)
Record Sys : Type := mkSys {
  rc    : ReadyChannel;
  pcs   : gid -> pc;
  now   : nat;
  timer : option nat
}.

Definition upd (f : gid -> pc) (g : gid) (p : pc) : gid -> pc :=
  fun g' => if Nat.eqb g' g then p else f g'.

(** [func NewReadyChannel(timeout time.Duration) *ReadyChannel]: the fresh
    channel, and the goroutine [time.Sleep(timeout); rc.Send(false)]. *)
Definition NewReadyChannel (timeout : nat) : Sys :=
  mkSys emptyReadyChannel (fun _ => Idle) 0 (Some timeout).

(** One scheduling decision. *)
Inductive sched : Type :=
| ExtSend (value : bool) (* any goroutine calls [t.Send(value)] *)
| TimerSend              (* the timer goroutine wakes up and calls [rc.Send(false)] *)
| Tick                   (* one unit of time passes *)
| Call (g : gid)         (* goroutine [g] calls [t.Receive()] *)
| Step (g : gid).        (* goroutine [g] runs its next statement *)

(** What callers observe: goroutine [g]'s call of [Receive] returned [v]. *)
Inductive obs : Type := Ret (g : gid) (v : bool).

Definition step (s : Sys) (a : sched) : option (Sys * list obs) :=
  match a with
  | ExtSend v => Some (mkSys (Send v (rc s)) (pcs s) (now s) (timer s), [])
  | TimerSend =>
      match timer s with
      | Some d =>
          if d <=? now s
          then Some (mkSys (Send false (rc s)) (pcs s) (now s) None, [])
          else None
      | None => None
      end
  | Tick =>
      (* the sleeping timer goroutine wakes up no later than its deadline *)
      match timer s with
      | Some d =>
          if d <=? now s then None
          else Some (mkSys (rc s) (pcs s) (S (now s)) (timer s), [])
      | None => Some (mkSys (rc s) (pcs s) (S (now s)) (timer s), [])
      end
  | Call g =>
      match pcs s g with
      | Idle => Some (mkSys (rc s) (upd (pcs s) g AtLock) (now s) (timer s), [])
      | _ => None
      end
  | Step g =>
      match pcs s g with
      | Idle => Some (s, [])
      | AtLock =>
          match lock g (rc s) with
          | Some t1 => Some (mkSys t1 (upd (pcs s) g AtCheck) (now s) (timer s), [])
          | None => None
          end
      | AtCheck =>
          if receivedYet (rc s)
          then Some (mkSys (unlock (rc s)) (upd (pcs s) g Idle) (now s) (timer s),
                     [Ret g (firstValue (rc s))])
          else Some (mkSys (rc s) (upd (pcs s) g AtRecv) (now s) (timer s), [])
      | AtRecv =>
          match chan_recv (rc s) with
          | Some (value, t2) =>
              Some (mkSys t2 (upd (pcs s) g (AtStore1 value)) (now s) (timer s), [])
          | None => None
          end
      | AtStore1 value =>
          Some (mkSys (set_receivedYet true (rc s))
                      (upd (pcs s) g (AtStore2 value)) (now s) (timer s), [])
      | AtStore2 value =>
          Some (mkSys (unlock (set_firstValue value (rc s)))
                      (upd (pcs s) g Idle) (now s) (timer s),
                [Ret g value])
      end
  end.

(** Run a schedule; [None] if it asks for a step that is not enabled. *)
Fixpoint run (l : list sched) (s : Sys) : option (Sys * list obs) :=
  match l with
  | [] => Some (s, [])
  | a :: l' =>
      match step s a with
      | None => None
      | Some (s1, o1) =>
          match run l' s1 with
          | None => None
          | Some (s2, o2) => Some (s2, o1 ++ o2)
          end
      end
  end.

(** The first value passed to [Send] in a schedule, by any source. *)
Fixpoint first_send (l : list sched) : option bool :=
  match l with
  | [] => None
  | ExtSend v :: _ => Some v
  | TimerSend :: _ => Some false
  | _ :: l' => first_send l'
  end.

(** ** The combinator, over a store of channels *)

(** [[]*ReadyChannel] is a list of addresses into a store, so that the same
    channel may occur more than once and every [Receive] acts on the shared
    object. *)
Definition addr := nat.
Definition store := addr -> ReadyChannel.

Definition store_set (σ : store) (a : addr) (t : ReadyChannel) : store :=
  fun a' => if Nat.eqb a' a then t else σ a'.

(** [func ReceiveReadyChannels(inputChannels []*ReadyChannel) bool], run by
    goroutine [g]; the loop state is the pair of [output] and the store. *)
Fixpoint ReceiveReadyChannels_loop (g : gid) (inputChannels : list addr)
    (output : bool) (σ : store) : option (bool * store) :=
  match inputChannels with
  | [] => Some (output, σ)
  | a :: rest =>
      match Receive g (σ a) with
      | None => None
      | Some (v, t') =>
          let output' := if negb v then false else output in
          ReceiveReadyChannels_loop g rest output' (store_set σ a t')
      end
  end.

Definition ReceiveReadyChannels (g : gid) (inputChannels : list addr) (σ : store)
  : option (bool * store) :=
  ReceiveReadyChannels_loop g inputChannels true σ.

(** [func CombineReadyChannels(inputChannels []*ReadyChannel,
                               outputChannel *ReadyChannel)]. *)
Definition CombineReadyChannels (g : gid) (inputChannels : list addr)
    (outputChannel : addr) (σ : store) : option store :=
  match ReceiveReadyChannels g inputChannels σ with
  | None => None
  | Some (output, σ') =>
      Some (store_set σ' outputChannel (Send output (σ' outputChannel)))
  end.

End Util.

(* ===================================================================== *)
(** * The Kubernetes API objects the code inspects                        *)
(* ===================================================================== *)

(** Only the fields read by the code are kept.  Go strings are sequences of
    bytes; [string] (one [ascii] per byte) stands for them. *)
Module Apiv1.

Record PodCondition : Type := mkPodCondition {
  cond_Type   : string;
  cond_Status : string
}.

Definition PodReady : string := "Ready".
Definition ConditionTrue : string := "True".
Definition VolumeAvailable : string := "Available".
Definition ClaimBound : string := "Bound".

Record ContainerPort : Type := mkContainerPort {
  ContainerPort_ : Z
}.

Record Container : Type := mkContainer {
  container_Name  : string;
  container_Ports : list ContainerPort
}.

(** [ObjectMeta.Annotations] is a Go map; the association list gives its
    entries in the order in which a [range] statement happens to visit
    them. *)
Record Pod : Type := mkPod {
  pod_Name        : string;
  pod_Annotations : list (string * string);
  pod_Containers  : list Container;
  pod_Conditions  : list PodCondition
}.

Record PersistentVolume : Type := mkPV {
  pv_Name  : string;
  pv_Phase : string
}.

Record PersistentVolumeClaim : Type := mkPVC {
  pvc_Name  : string;
  pvc_Phase : string
}.

(** [intstr.IntOrString]: [Type] is 0 for Int and 1 for String. *)
Record IntOrString : Type := mkIntOrString {
  ios_Type   : Z;
  ios_IntVal : Z;
  ios_StrVal : string
}.

Definition FromInt (val : Z) : IntOrString := mkIntOrString 0 val "".

(** [==] on the struct compares all three fields. *)
Definition IntOrString_eqb (a b : IntOrString) : bool :=
  Z.eqb (ios_Type a) (ios_Type b) && Z.eqb (ios_IntVal a) (ios_IntVal b)
  && String.eqb (ios_StrVal a) (ios_StrVal b).

Record ServicePort : Type := mkServicePort {
  sp_TargetPort : IntOrString;
  sp_NodePort   : Z            (* int32 *)
}.

Record Service : Type := mkService {
  svc_Name  : string;
  svc_Ports : list ServicePort
}.

(** [runtime.Object]: what a watch event carries. *)
Inductive Object : Type :=
| PodObj (p : Pod)
| PVObj (pv : PersistentVolume)
| PVCObj (pvc : PersistentVolumeClaim)
| SvcObj (svc : Service)
| StatusObj (message : string).

(** [watch.EventType]. *)
Inductive EventType : Type := Added | Modified | Deleted | Bookmark | Error.

Record Event : Type := mkEvent {
  ev_Type   : EventType;
  ev_Object : Object
}.

End Apiv1.

(* ===================================================================== *)
(** * Package k8sclient                                                   *)
(* ===================================================================== *)

Module K8sClient.
Import Apiv1.

(** What [WatchFor] and the classifiers act upon: the watcher (whether
    [Stop] has been called on it, and how many events were received from
    its [ResultChan]), the channel [ch] of capacity one, the values handed
    to [util.TrySend] so far (oldest first), the timers registered with
    [time.AfterFunc], and standard output. *)
Record World : Type := mkWorld {
  w_stopped  : bool;
  w_received : nat;
  w_ch       : option bool;
  w_sends    : list bool;
  w_timers   : list nat;
  w_stdout   : list string
}.

Definition newWorld (ch : option bool) : World := mkWorld false 0 ch [] [] [].

(** Modelled from the spec: [util.TrySend] is called by this package but is
    not among the sources.  Spec 4.1, send: non-blocking; if no value has
    been recorded yet, records the value as the resolved outcome; otherwise
    a no-op. *)
Definition TrySend (value : bool) (w : World) : World :=
  mkWorld (w_stopped w) (w_received w)
          (match w_ch w with None => Some value | Some v => Some v end)
          (w_sends w ++ [value]) (w_timers w) (w_stdout w).

(** [watcher.Stop()]: closes the channel returned by [ResultChan]. *)
Definition Stop (w : World) : World :=
  mkWorld true (w_received w) (w_ch w) (w_sends w) (w_timers w) (w_stdout w).

(** [fmt.Printf]; one entry per line printed. *)
Definition Printf (line : string) (w : World) : World :=
  mkWorld (w_stopped w) (w_received w) (w_ch w) (w_sends w) (w_timers w)
          (w_stdout w ++ [line]).

Definition received (w : World) : World :=
  mkWorld (w_stopped w) (S (w_received w)) (w_ch w) (w_sends w) (w_timers w)
          (w_stdout w).

(** [time.AfterFunc(timeout, func() { watcher.Stop(); util.TrySend(ch, false) })]
    registers the callback; [timer_callback] is what it does when it runs. *)
Definition AfterFunc (timeout : nat) (w : World) : World :=
  mkWorld (w_stopped w) (w_received w) (w_ch w) (w_sends w)
          (w_timers w ++ [timeout]) (w_stdout w).


(** [for event := range watcher.ResultChan() { body }].  [events] are the
    events the API server delivers before the stream ends by itself; the
    loop ends earlier once [Stop] has closed the channel.  A body returning
    [None] has panicked (a failed type assertion). *)
Fixpoint range_ResultChan (body : Event -> World -> option World)
    (events : list Event) (w : World) : option World :=
  match events with
  | [] => Some w
  | event :: rest =>
      if w_stopped w then Some w
      else
        match body event (received w) with
        | None => None
        | Some w' => range_ResultChan body rest w'
        end
  end.

(** The inner loop of [signalPodReady] over [eventPod.Status.Conditions]. *)
Fixpoint podConditions_loop (eventPod : Pod) (conditions : list PodCondition)
    (w : World) : World :=
  match conditions with
  | [] => w
  | condition :: rest =>
      if String.eqb (cond_Type condition) PodReady then
        (* ... break *)
        if String.eqb (cond_Status condition) ConditionTrue then
          TrySend true (Stop (Printf ("READY POD: " +:+ pod_Name eventPod) w))
        else w
      else podConditions_loop eventPod rest w
  end.

(** [func signalPodReady(watcher watch.Interface, ch chan<- bool)]. *)
Definition signalPodReady_body (event : Event) (w : World) : option World :=
  match ev_Type event with
  | Modified =>
      match ev_Object event with
      | PodObj eventPod => Some (podConditions_loop eventPod (pod_Conditions eventPod) w)
      | _ => None (* the type assertion on event.Object panics *)
      end
  | _ => Some w
  end.

Definition signalPodReady (events : list Event) (w : World) : option World :=
  range_ResultChan signalPodReady_body events w.

(** [func signalDeleted(watcher watch.Interface, ch chan<- bool)]. *)
Definition signalDeleted_body (event : Event) (w : World) : option World :=
  match ev_Type event with
  | Deleted => Some (TrySend true (Stop w))
  | _ => Some w
  end.

Definition signalDeleted (events : list Event) (w : World) : option World :=
  range_ResultChan signalDeleted_body events w.

(** [func signalPVReady(watcher watch.Interface, ch chan<- bool)]. *)
Definition signalPVReady_body (event : Event) (w : World) : option World :=
  match ev_Type event with
  | Modified =>
      match ev_Object event with
      | PVObj pv =>
          if String.eqb (pv_Phase pv) VolumeAvailable
          then Some (TrySend true (Stop w)) else Some w
      | _ => None
      end
  | _ => Some w
  end.

Definition signalPVReady (events : list Event) (w : World) : option World :=
  range_ResultChan signalPVReady_body events w.

(** [func signalPVCReady(watcher watch.Interface, ch chan<- bool)]. *)
Definition signalPVCReady_body (event : Event) (w : World) : option World :=
  match ev_Type event with
  | Modified =>
      match ev_Object event with
      | PVCObj pvc =>
          if String.eqb (pvc_Phase pvc) ClaimBound
          then Some (TrySend true (Stop w)) else Some w
      | _ => None
      end
  | _ => Some w
  end.

Definition signalPVCReady (events : list Event) (w : World) : option World :=
  range_ResultChan signalPVCReady_body events w.

(** The cluster control plane, as far as this code consumes it.  [C] is the
    state of the cluster; every call may change it.
    - [cs_Watch resource namespace fieldSelector]: the events of the new
      watcher, or an error;
    - [cs_ListServices namespace labelSelector];
    - [cs_Exec namespace pod container command]: the error of
      [remotecommand.NewSPDYExecutor], or standard output, standard error
      and an optional error, as [exec.Stream] leaves them. *)
Record Clientset (C : Type) : Type := mkClientset {
  cs_Watch : string -> string -> string -> C -> (list Event + string) * C;
  cs_ListServices : string -> string -> C -> (list Service + string) * C;
  cs_Exec : string -> string -> string -> list string -> C ->
            (string + list ascii * list ascii * option string) * C
}.
Arguments cs_Watch {C}.
Arguments cs_ListServices {C}.
Arguments cs_Exec {C}.

(** [type K8sClient struct]. *)
Record K8sClient (C : Type) : Type := mkK8sClient {
  clientset     : Clientset C;
  timeoutDelete : nat;
  timeoutCreate : nat;
  Namespace     : string;
  TokenDir      : string
}.
Arguments clientset {C}.
Arguments timeoutDelete {C}.
Arguments timeoutCreate {C}.
Arguments Namespace {C}.
Arguments TokenDir {C}.

(** The [switch resourceType] of [WatchFor]: the watcher (its events) or an
    error.  PersistentVolumes are not namespaced. *)
Definition newWatcher {C} (c : K8sClient C) (resourceType fieldSelector : string)
    (k : C) : (list Event + string) * C :=
  if String.eqb resourceType "Pod" then
    cs_Watch (clientset c) "pods" (Namespace c) fieldSelector k
  else if String.eqb resourceType "PV" then
    cs_Watch (clientset c) "persistentvolumes" "" fieldSelector k
  else if String.eqb resourceType "PVC" then
    cs_Watch (clientset c) "persistentvolumeclaims" (Namespace c) fieldSelector k
  else if String.eqb resourceType "SVC" then
    cs_Watch (clientset c) "services" (Namespace c) fieldSelector k
  else (inr "Unsupported resource type for watcher", k).

(** [func (c *K8sClient) WatchFor(name, timeout, resourceType, signalFunc, ch)].
    The Go function has no result parameters: all it leaves behind is the
    effect on the world (and on the cluster).  [None]: the classifier
    panicked. *)
Definition WatchFor {C} (c : K8sClient C) (name : string) (timeout : nat)
    (resourceType : string)
    (signalFunc : list Event -> World -> option World)
    (w : World) (k : C) : option World * C :=
  let listOptions := "metadata.name=" +:+ name in
  match newWatcher c resourceType listOptions k with
  | (inr err, k') =>
      let w1 := TrySend false w in
      let w2 := Printf ("Error in WatchFor: " +:+ err) w1 in
      (Some w2, k')
  | (inl watcher, k') =>
      let w1 := AfterFunc timeout w in
      (signalFunc watcher w1, k')
  end.

Definition WatchDeletePod {C} (c : K8sClient C) (name : string) :=
  WatchFor c name (timeoutDelete c) "Pod" signalDeleted.
Definition WatchDeletePVC {C} (c : K8sClient C) (name : string) :=
  WatchFor c name (timeoutDelete c) "PVC" signalDeleted.
Definition WatchCreatePVC {C} (c : K8sClient C) (name : string) :=
  WatchFor c name (timeoutCreate c) "PVC" signalPVCReady.
Definition WatchDeletePV {C} (c : K8sClient C) (name : string) :=
  WatchFor c name (timeoutDelete c) "PV" signalDeleted.
Definition WatchCreatePV {C} (c : K8sClient C) (name : string) :=
  WatchFor c name (timeoutCreate c) "PV" signalPVReady.
Definition WatchDeleteService {C} (c : K8sClient C) (name : string) :=
  WatchFor c name (timeoutDelete c) "SVC" signalDeleted.

(** [func (c *K8sClient) PodExec(command, pod, nContainer)]; [None] when
    [pod.Spec.Containers[nContainer]] is out of range (a panic). *)
Definition PodExec {C} (c : K8sClient C) (command : list string) (pod : Pod)
    (nContainer : nat) (k : C)
  : option ((list ascii * list ascii * option string) * C) :=
  match nth_error (pod_Containers pod) nContainer with
  | None => None
  | Some container =>
      match cs_Exec (clientset c) (Namespace c) (pod_Name pod)
                    (container_Name container) command k with
      | (inl err, k') =>
          Some (([], [], Some ("Couldn't create executor: " +:+ err)), k')
      | (inr (stdout, stderr, Some err), k') =>
          Some ((stdout, stderr, Some ("Stream error: " +:+ err)), k')
      | (inr (stdout, stderr, None), k') => Some ((stdout, stderr, None), k')
      end
  end.

Definition ListServices {C} (c : K8sClient C) (labelSelector : string) (k : C)
  : (list Service + string) * C :=
  cs_ListServices (clientset c) (Namespace c) labelSelector k.

End K8sClient.

(* ===================================================================== *)
(** * Go conversions and library calls used by package managed            *)
(* ===================================================================== *)

Module Go.

Local Open Scope Z_scope.

(** [strings.Replace(s, old, new, -1)] for one-byte [old] and [new]: every
    occurrence is replaced. *)
Fixpoint Replace1 (s : string) (old new : ascii) : string :=
  match s with
  | EmptyString => EmptyString
  | String c rest =>
      String (if Ascii.eqb c old then new else c) (Replace1 rest old new)
  end.

(** [strings.Cut(s, sep)] for a one-byte [sep]: the text before and after
    the first occurrence, and whether there is one. *)
Fixpoint Cut1 (s : string) (sep : ascii) : string * string * bool :=
  match s with
  | EmptyString => (EmptyString, EmptyString, false)
  | String c rest =>
      if Ascii.eqb c sep then (EmptyString, rest, true)
      else
        match Cut1 rest sep with
        | (before, after, found) => (String c before, after, found)
        end
  end.

(** [make([]byte, n)]. *)
Definition make_bytes (n : nat) : list ascii := repeat zero n.

(** [Read(p)] of [bytes.Buffer]: copies the unread bytes of the buffer into
    [p], as far as [p] has room, and leaves the rest of [p] as it was. *)
Definition Buffer_Read (buf p : list ascii) : list ascii :=
  firstn (length p) buf ++ skipn (length buf) p.

Definition RuneError : Z := 65533.   (* U+FFFD *)
Definition MaxRune : Z := 1114111.   (* U+10FFFF *)
Definition surrogateMin : Z := 55296. (* U+D800 *)
Definition surrogateMax : Z := 57343. (* U+DFFF *)

(** The runtime's [encoderune]: the UTF-8 bytes of a rune; runes out of
    range and surrogate halves are encoded as U+FFFD. *)
Definition encoderune (r : Z) : list Z :=
  if (0 <=? r) && (r <=? 127) then [r]
  else if (0 <=? r) && (r <=? 2047) then
    [Z.lor 192 (Z.shiftr r 6); Z.lor 128 (Z.land r 63)]
  else if (r <? 0) || (MaxRune <? r)
          || ((surrogateMin <=? r) && (r <=? surrogateMax)) then
    [239; 191; 189]
  else if r <=? 65535 then
    [Z.lor 224 (Z.shiftr r 12);
     Z.lor 128 (Z.land (Z.shiftr r 6) 63);
     Z.lor 128 (Z.land r 63)]
  else
    [Z.lor 240 (Z.shiftr r 18);
     Z.lor 128 (Z.land (Z.shiftr r 12) 63);
     Z.lor 128 (Z.land (Z.shiftr r 6) 63);
     Z.lor 128 (Z.land r 63)].

Definition byte_of_Z (b : Z) : ascii := ascii_of_N (Z.to_N b).

(** The conversion [string(v)] of an [int32] value: a string holding the
    UTF-8 representation of the integer taken as a rune. *)
Definition string_of_int32 (v : Z) : string :=
  string_of_list_ascii (map byte_of_Z (encoderune v)).

(** Exported identifiers start with an upper-case letter. *)
Definition isExported (name : string) : bool :=
  match name with
  | String c _ => (65 <=? Z.of_nat (nat_of_ascii c)) && (Z.of_nat (nat_of_ascii c) <=? 90)
  | EmptyString => false
  end.

(** ** encoding/gob, for a struct whose fields are string-to-string maps *)

(** A struct value as reflection presents it: field names with values. *)
Definition fields := list (string * gmap string string).

Section Gob.
(** The byte format of a stream carrying the transmitted fields. *)
Variable wire_encode : fields -> list ascii.
Variable wire_decode : list ascii -> option fields.

(** [Encode] of [gob.Encoder]: only exported fields are transmitted, and
    encoding a struct type that has fields, none of them exported, fails. *)
Definition gob_Encode (typeName : string) (v : fields) : list ascii + string :=
  let sent := filter (fun f => isExported (fst f)) v in
  if (0 <? length v)%nat && (length sent =? 0)%nat
  then inr ("gob: type " +:+ typeName +:+ " has no exported fields")
  else inl (wire_encode sent).

Fixpoint field_lookup (name : string) (v : fields) : option (gmap string string) :=
  match v with
  | [] => None
  | (n, x) :: rest => if String.eqb n name then Some x else field_lookup name rest
  end.

(** [Decode] of [gob.Decoder]: a transmitted field is stored into the
    exported field of the same name of the destination; other transmitted
    fields are ignored and other destination fields keep their values. *)
Definition gob_Decode (stream : list ascii) (dst : fields) : fields + string :=
  match wire_decode stream with
  | None => inr "gob: decoding failed"
  | Some received =>
      inl (map (fun f =>
                  if isExported (fst f) then
                    match field_lookup (fst f) received with
                    | Some x => (fst f, x)
                    | None => f
                    end
                  else f) dst)
  end.
End Gob.

End Go.

(* ===================================================================== *)
(** * Package managed                                                     *)
(* ===================================================================== *)

Module Managed.
Import Apiv1 K8sClient Go.

Definition tokenByteLimit : nat := 4096.

(** [type podCache struct { tokens, otherResourceInfo map[string]string }]. *)
Record podCache : Type := mkPodCache {
  tokens            : gmap string string;
  otherResourceInfo : gmap string string
}.

(** The fields of [podCache] as reflection lists them, and the struct
    rebuilt from such a list. *)
Definition podCache_fields (c : podCache) : fields :=
  [("tokens", tokens c); ("otherResourceInfo", otherResourceInfo c)].

Definition podCache_of_fields (v : fields) (c : podCache) : podCache :=
  mkPodCache
    (match field_lookup "tokens" v with Some x => x | None => tokens c end)
    (match field_lookup "otherResourceInfo" v with
     | Some x => x | None => otherResourceInfo c end).

(** What the functions of this package act upon besides the pod: the
    cluster, the files under the token directory (path to contents),
    standard output, and the seconds spent in [time.Sleep]. *)
Record Env (C : Type) : Type := mkEnv {
  e_cluster : C;
  e_files   : gmap string (list ascii);
  e_stdout  : list string;
  e_slept   : nat
}.
Arguments mkEnv {C}.
Arguments e_cluster {C}.
Arguments e_files {C}.
Arguments e_stdout {C}.
Arguments e_slept {C}.

Section WithCluster.
Context {C : Type}.

(** [type User struct]. *)
Record User : Type := mkUser {
  UserID : string;
  Name   : string;
  Domain : string;
  SiloIP : string;
  u_Client : K8sClient C
}.

(** [func NewUser(userID string, siloIP string, client k8sclient.K8sClient) User]. *)
Definition NewUser (userID siloIP : string) (client : K8sClient C) : User :=
  if String.eqb userID "" then mkUser "" "" "" "" client
  else
    match Cut1 userID "@" with
    | (name, domain, _) => mkUser userID name domain siloIP client
    end.

(** [func (u *User) GetUserString() string]. *)
Definition GetUserString (u : User) : string :=
  let userString := Replace1 (UserID u) "@" "-" in
  let userString := Replace1 userString "." "-" in
  userString.

(** [func (u *User) GetStoragePVName() string]. *)
Definition GetStoragePVName (u : User) : string :=
  "user-storage-" +:+ GetUserString u.

(** [func (u *User) GetStorageListOptions() metav1.ListOptions]: the label
    selector. *)
Definition GetStorageListOptions (u : User) : string :=
  "name=" +:+ GetStoragePVName u.

(** [type Pod struct]; [cache] is the object behind the [*podCache]
    pointer, which only this pod refers to. *)
Record Pod : Type := mkPodM {
  Object : Apiv1.Pod;
  Client : K8sClient C;
  cache  : podCache
}.

Definition set_cache (c : podCache) (p : Pod) : Pod :=
  mkPodM (Object p) (Client p) c.

Definition set_token (key value : string) (p : Pod) : Pod :=
  set_cache (mkPodCache (<[key := value]> (tokens (cache p)))
                        (otherResourceInfo (cache p))) p.

Definition set_otherResourceInfo (key value : string) (p : Pod) : Pod :=
  set_cache (mkPodCache (tokens (cache p))
                        (<[key := value]> (otherResourceInfo (cache p)))) p.

Definition e_Printf (line : string) (e : Env C) : Env C :=
  mkEnv (e_cluster e) (e_files e) (e_stdout e ++ [line]) (e_slept e).

Definition e_Sleep (seconds : nat) (e : Env C) : Env C :=
  mkEnv (e_cluster e) (e_files e) (e_stdout e) (e_slept e + seconds).

Definition set_cluster (k : C) (e : Env C) : Env C :=
  mkEnv k (e_files e) (e_stdout e) (e_slept e).

Definition set_files (fs : gmap string (list ascii)) (e : Env C) : Env C :=
  mkEnv (e_cluster e) fs (e_stdout e) (e_slept e).

(** [func (p *Pod) getCacheFile() string]. *)
Definition getCacheFile (p : Pod) : string :=
  TokenDir (Client p) +:+ "/" +:+ pod_Name (Object p).

(** [func (p *Pod) needsSshService() bool]: [listensSsh] is set as soon as
    some port of some container is 22. *)
Definition needsSshService (p : Pod) : bool :=
  existsb (fun container =>
             existsb (fun port => Z.eqb (ContainerPort_ port) 22)
                     (container_Ports container))
          (pod_Containers (Object p)).

(** [func (p *Pod) getTmpFile(key string) (string, error)]; [None] is the
    panic of [PodExec] on a pod without containers. *)
Definition getTmpFile (p : Pod) (key : string) (e : Env C)
  : option ((string * option string) * Env C) :=
  match PodExec (Client p) ["cat"; "/tmp/" +:+ key] (Object p) 0 (e_cluster e) with
  | None => None
  | Some ((stdout, stderr, Some err), k') =>
      Some (("", Some ("Couldn't call pod exec for pod "
                        +:+ pod_Name (Object p) +:+ ": " +:+ err)),
            set_cluster k' e)
  | Some ((stdout, stderr, None), k') =>
      if (length stdout =? 0)%nat then
        Some (("", Some ("Empty response. Stderr: " +:+ string_of_list_ascii stderr)),
              set_cluster k' e)
      else
        let readBytes :=
          if (length stdout <? tokenByteLimit)%nat then stdout
          else Buffer_Read stdout (make_bytes tokenByteLimit) in
        Some ((string_of_list_ascii readBytes, None), set_cluster k' e)
  end.

(** The retry loop of [fillAllTmpFiles]:
    [for i := 0; i < 10; i++ { p.cache.tokens[key], err = p.getTmpFile(key); ... }];
    [n] is the number of iterations left, and the loop yields the last [err]. *)
Fixpoint retry_loop (n : nat) (key : string) (err : option string)
    (p : Pod) (e : Env C) : option (option string * Pod * Env C) :=
  match n with
  | O => Some (err, p, e)
  | S n' =>
      match getTmpFile p key e with
      | None => None
      | Some ((value, err'), e1) =>
          let p1 := set_token key value p in
          match err' with
          | Some _ => retry_loop n' key err' p1 (e_Sleep 1 e1)
          | None => Some (None, p1, e1)
          end
      end
  end.

(** The body of [for _, key := range toCopy]. *)
Definition fill_one (oneTry : bool) (key : string) (p : Pod) (e : Env C)
  : option (Pod * Env C) :=
  if oneTry then
    match getTmpFile p key e with
    | None => None
    | Some ((value, err), e1) =>
        let p1 := set_token key value p in
        match err with
        | Some msg =>
            Some (p1, e_Printf ("Error while refreshing token " +:+ key +:+ " for pod "
                                 +:+ pod_Name (Object p) +:+ ": " +:+ msg) e1)
        | None => Some (p1, e1)
        end
    end
  else
    match retry_loop 10 key None p e with
    | None => None
    | Some (Some msg, p1, e1) =>
        Some (p1, e_Printf ("Error while copying token " +:+ key +:+ " for pod "
                             +:+ pod_Name (Object p) +:+ ": " +:+ msg) e1)
    | Some (None, p1, e1) => Some (p1, e1)
    end.

Fixpoint fill_keys (oneTry : bool) (toCopy : list string) (p : Pod) (e : Env C)
  : option (Pod * Env C) :=
  match toCopy with
  | [] => Some (p, e)
  | key :: rest =>
      match fill_one oneTry key p e with
      | None => None
      | Some (p1, e1) => fill_keys oneTry rest p1 e1
      end
  end.

(** The keys whose annotation value is the marker. *)
Definition toCopy (annotations : list (string * string)) : list string :=
  map fst (filter (fun kv => String.eqb (snd kv) "copyForFrontend") annotations).

(** [func (p *Pod) fillAllTmpFiles(oneTry bool)]. *)
Definition fillAllTmpFiles (oneTry : bool) (p : Pod) (e : Env C)
  : option (Pod * Env C) :=
  fill_keys oneTry (toCopy (pod_Annotations (Object p))) p e.

(** [func (p *Pod) ListServices()]. *)
Definition Pod_ListServices (p : Pod) (k : C) : (list Service + string) * C :=
  ListServices (Client p) ("createdForPod=" +:+ pod_Name (Object p)) k.

(** The two loops of [getSshPort], each left by [break] at its first match. *)
Fixpoint ports_loop (ports : list ServicePort) (sshPort : Z) : Z :=
  match ports with
  | [] => sshPort
  | portEntry :: rest =>
      if IntOrString_eqb (sp_TargetPort portEntry) (FromInt 22)
      then sp_NodePort portEntry
      else ports_loop rest sshPort
  end.

Fixpoint services_loop (podName : string) (items : list Service) (sshPort : Z) : Z :=
  match items with
  | [] => sshPort
  | service :: rest =>
      if String.eqb (svc_Name service) (podName +:+ "-ssh")
      then ports_loop (svc_Ports service) sshPort
      else services_loop podName rest sshPort
  end.

(** [func (p *Pod) getSshPort() (string, error)]. *)
Definition getSshPort (p : Pod) (e : Env C) : (string * option string) * Env C :=
  match Pod_ListServices p (e_cluster e) with
  | (inr err, k') => (("", Some err), set_cluster k' e)
  | (inl items, k') =>
      let sshPort := services_loop (pod_Name (Object p)) items 0%Z in
      if Z.eqb sshPort 0 then
        (("", Some "Ssh service nodePort not found"), set_cluster k' e)
      else ((string_of_int32 sshPort, None), set_cluster k' e)
  end.

(** [func (p *Pod) fillOtherResourceInfo()]. *)
Definition fillOtherResourceInfo (p : Pod) (e : Env C) : Pod * Env C :=
  if needsSshService p then
    match getSshPort p e with
    | ((_, Some err), e1) =>
        (p, e_Printf ("Error while copying ssh port for pod "
                       +:+ pod_Name (Object p) +:+ ": " +:+ err) e1)
    | ((sshPort, None), e1) => (set_otherResourceInfo "sshPort" sshPort p, e1)
    end
  else (p, e).

Section Persist.
Variable wire_encode : fields -> list ascii.
Variable wire_decode : list ascii -> option fields.

(** [func (p *Pod) savePodCache() error].  [os.Remove] fails on a path
    that does not exist, which the function tolerates; other failures of
    the file system are not modelled. *)
Definition savePodCache (p : Pod) (e : Env C) : option string * Env C :=
  match gob_Encode wire_encode "managed.podCache" (podCache_fields (cache p)) with
  | inr err => (Some err, e)
  | inl b =>
      let e1 := set_files (delete (getCacheFile p) (e_files e)) e in
      let e2 := set_files (<[getCacheFile p := b]> (e_files e1)) e1 in
      (None, e2)
  end.

(** [func (p *Pod) loadPodCache() error]. *)
Definition loadPodCache (p : Pod) (e : Env C) : option string * Pod :=
  match e_files e !! getCacheFile p with
  | None => (Some ("open " +:+ getCacheFile p +:+ ": no such file or directory"), p)
  | Some file =>
      match gob_Decode wire_decode file (podCache_fields (cache p)) with
      | inr err => (Some err, p)
      | inl v => (None, set_cache (podCache_of_fields v (cache p)) p)
      end
  end.
End Persist.

End WithCluster.
Arguments User : clear implicits.
Arguments Pod : clear implicits.

End Managed.

(* ===================================================================== *)
(** * Invariants and specification-side notions                           *)
(* ===================================================================== *)

Module UtilInv.
Import Util.

(** The statement at which the holder of the mutex stands ([Idle] when the
    mutex is free). *)
Definition holder_pc (s : Sys) : pc :=
  match mutex (rc s) with
  | Some h => pcs s h
  | None => Idle
  end.

(** A goroutine between [Lock] and the deferred [Unlock]. *)
Definition critical (p : pc) : bool :=
  match p with
  | Idle | AtLock => false
  | _ => true
  end.

(** Record the first value sent. *)
Definition note (f : option bool) (v : bool) : option bool :=
  match f with
  | Some _ => f
  | None => Some v
  end.

Definition note_step (f : option bool) (a : sched) : option bool :=
  match a with
  | ExtSend v => note f v
  | TimerSend => note f false
  | _ => f
  end.

(** The invariant tying the state of the channel to the first value [f]
    ever passed to [Send] ([None]: nothing sent so far):
    - only the holder of the mutex is inside the critical section;
    - while nobody has received, the buffer holds exactly the first value;
    - a value taken out of the buffer, or recorded in [firstValue], is the
      first value. *)
Record Inv (f : option bool) (s : Sys) : Prop := mkInv {
  inv_crit : forall g, critical (pcs s g) = true -> mutex (rc s) = Some g;
  inv_hold : forall g, mutex (rc s) = Some g -> critical (pcs s g) = true;
  inv_val :
    match holder_pc s with
    | AtRecv => receivedYet (rc s) = false /\ ch (rc s) = f
    | AtStore1 v => receivedYet (rc s) = false /\ f = Some v
    | AtStore2 v => receivedYet (rc s) = true /\ f = Some v
    | _ => if receivedYet (rc s) then f = Some (firstValue (rc s))
           else ch (rc s) = f
    end
}.

(** Two states that differ at most in the contents of the buffer. *)
Definition same_but_ch (s1 s2 : Sys) : Prop :=
  receivedYet (rc s1) = receivedYet (rc s2) /\
  firstValue (rc s1) = firstValue (rc s2) /\
  mutex (rc s1) = mutex (rc s2) /\
  (forall g, pcs s1 g = pcs s2 g) /\
  now s1 = now s2 /\ timer s1 = timer s2.

(** The buffer will not be read any more: a value has been recorded, or the
    holder of the mutex has taken it out and is about to record it. *)
Definition ch_dead (s : Sys) : Prop :=
  receivedYet (rc s) = true \/
  exists v, holder_pc s = AtStore1 v \/ holder_pc s = AtStore2 v.

Definition is_send (a : sched) : bool :=
  match a with
  | ExtSend _ | TimerSend => true
  | _ => false
  end.

Definition is_ext_send (a : sched) : bool :=
  match a with
  | ExtSend _ => true
  | _ => false
  end.

(** Steps of goroutines only: no send, and no time passes. *)
Definition is_goroutine_step (a : sched) : bool :=
  match a with
  | Call _ | Step _ => true
  | _ => false
  end.

(** Steps in which no time passes and no source other than the timer
    sends. *)
Definition timeless (a : sched) : bool :=
  match a with
  | Tick | ExtSend _ => false
  | _ => true
  end.

(** Goroutine [g] can complete a call of [Receive] with result [v] by
    steps of goroutines alone, after which the mutex is free. *)
Definition Fin (v : bool) (s : Sys) (g : gid) : Prop :=
  exists k s1 o1,
    forallb is_goroutine_step k = true /\
    run k s = Some (s1, o1) /\ In (Ret g v) o1 /\
    mutex (rc s1) = None /\
    (forall g', g' <> g -> pcs s1 g' = pcs s g') /\
    Inv (Some v) s1.

End UtilInv.

Module K8sSpec.
Import Apiv1 K8sClient.

(** The four classifiers. *)
Inductive classifier : Type := PodReadyC | PVReadyC | PVCReadyC | DeletedC.

Definition run_classifier (c : classifier)
  : list Event -> World -> option World :=
  match c with
  | PodReadyC => signalPodReady
  | PVReadyC => signalPVReady
  | PVCReadyC => signalPVCReady
  | DeletedC => signalDeleted
  end.

(** A pod is ready when its condition of type Ready has status True. *)
Definition pod_ready (p : Pod) : bool :=
  match find (fun c => String.eqb (cond_Type c) PodReady) (pod_Conditions p) with
  | Some c => String.eqb (cond_Status c) ConditionTrue
  | None => false
  end.

(** The terminal condition of each classifier, as the specification words
    it. *)
Definition terminal (c : classifier) (e : Event) : bool :=
  match c, ev_Type e, ev_Object e with
  | PodReadyC, Modified, PodObj p => pod_ready p
  | PVReadyC, Modified, PVObj pv => String.eqb (pv_Phase pv) "Available"
  | PVCReadyC, Modified, PVCObj pvc => String.eqb (pvc_Phase pvc) "Bound"
  | DeletedC, Deleted, _ => true
  | _, _, _ => false
  end.

(** The events of a watch on one kind of resource: a Modified event
    carries an object of that kind.  (A deletion watch looks at no object.) *)
Definition well_kinded (c : classifier) (e : Event) : bool :=
  match c, ev_Type e, ev_Object e with
  | PodReadyC, Modified, PodObj _ => true
  | PodReadyC, Modified, _ => false
  | PVReadyC, Modified, PVObj _ => true
  | PVReadyC, Modified, _ => false
  | PVCReadyC, Modified, PVCObj _ => true
  | PVCReadyC, Modified, _ => false
  | _, _, _ => true
  end.

(** The loop body of each classifier. *)
Definition body_of (c : classifier) : Event -> World -> option World :=
  match c with
  | PodReadyC => signalPodReady_body
  | PVReadyC => signalPVReady_body
  | PVCReadyC => signalPVCReady_body
  | DeletedC => signalDeleted_body
  end.

(** The effect of a classifier on its terminal event: the watcher is
    stopped and true is handed to [TrySend], once. *)
Definition fires (w : World) : World -> Prop :=
  fun w1 =>
    w_stopped w1 = true /\ w_sends w1 = w_sends w ++ [true] /\
    w_received w1 = w_received w /\
    w_ch w1 = Some (match w_ch w with Some v => v | None => true end) /\
    w_timers w1 = w_timers w.

(** The resource types [WatchFor] knows. *)
Definition supported (resourceType : string) : bool :=
  existsb (String.eqb resourceType) ["Pod"; "PV"; "PVC"; "SVC"].

(** A control plane that refuses every watch. *)
Definition refusing : Clientset unit :=
  mkClientset unit
    (fun _ _ _ k => (inr "connection refused", k))
    (fun _ _ k => (inr "connection refused", k))
    (fun _ _ _ _ k => (inl "connection refused", k)).

Definition refused_client : K8sClient unit :=
  mkK8sClient unit refusing 90 90 "sciencedata-dev" "/tmp/tokens".

(** A pod watch: the pod is added, reported not ready, then ready twice. *)
Definition demo_pod (status : string) : Pod :=
  mkPod "jupyter" [] []
        [mkPodCondition "Initialized" "True"; mkPodCondition "Ready" status].

Definition demo_events : list Event :=
  [mkEvent Added (PodObj (demo_pod "False"));
   mkEvent Modified (PodObj (demo_pod "False"));
   mkEvent Modified (PodObj (demo_pod "True"));
   mkEvent Modified (PodObj (demo_pod "True"))].

End K8sSpec.

Module ManagedSpec.
Import Apiv1 K8sClient Go Managed.

Local Open Scope Z_scope.

(** ** UTF-8, read back *)

Definition bytes_of_string (s : string) : list Z :=
  map (fun c => Z.of_N (N_of_ascii c)) (list_ascii_of_string s).

Definition continuation (b : Z) : bool := (128 <=? b) && (b <=? 191).

(** Unicode scalar values: code points that are not surrogate halves. *)
Definition valid_scalar (r : Z) : bool :=
  (0 <=? r) && (r <=? 1114111) && negb ((55296 <=? r) && (r <=? 57343)).

(** The first code point of a UTF-8 byte sequence and the bytes after it;
    [None] on anything that is not the shortest encoding of a scalar value. *)
Definition decode_rune (bs : list Z) : option (Z * list Z) :=
  match bs with
  | [] => None
  | b0 :: rest =>
      if (0 <=? b0) && (b0 <=? 127) then Some (b0, rest)
      else if (194 <=? b0) && (b0 <=? 223) then
        match rest with
        | b1 :: rest1 =>
            if continuation b1
            then Some ((b0 - 192) * 64 + (b1 - 128), rest1) else None
        | _ => None
        end
      else if (224 <=? b0) && (b0 <=? 239) then
        match rest with
        | b1 :: b2 :: rest2 =>
            let r := (b0 - 224) * 4096 + (b1 - 128) * 64 + (b2 - 128) in
            if continuation b1 && continuation b2
               && (2048 <=? r) && valid_scalar r
            then Some (r, rest2) else None
        | _ => None
        end
      else if (240 <=? b0) && (b0 <=? 244) then
        match rest with
        | b1 :: b2 :: b3 :: rest3 =>
            let r := (b0 - 240) * 262144 + (b1 - 128) * 4096
                     + (b2 - 128) * 64 + (b3 - 128) in
            if continuation b1 && continuation b2 && continuation b3
               && (65536 <=? r) && valid_scalar r
            then Some (r, rest3) else None
        | _ => None
        end
      else None
  end.

(** [s] is the one-rune string whose code point is [r]. *)
Definition one_rune (s : string) (r : Z) : bool :=
  match decode_rune (bytes_of_string s) with
  | Some (r', []) => Z.eqb r' r
  | _ => false
  end.

(** The decimal digits of an integer, as [strconv.Itoa] or [%d] print it. *)
Definition decimal (n : Z) : string :=
  DecimalString.NilZero.string_of_int (Z.to_int n).

Definition is_digit (c : ascii) : bool :=
  (48 <=? N_of_ascii c)%N && (N_of_ascii c <=? 57)%N.

Fixpoint all_digits (s : string) : bool :=
  match s with
  | EmptyString => true
  | String c rest => is_digit c && all_digits rest
  end.

(** [P] on all of [base, base + 2^k). *)
Fixpoint all_bits (k : nat) (base : Z) (P : Z -> bool) : bool :=
  match k with
  | O => P base
  | S k' => all_bits k' base P && all_bits k' (base + 2 ^ Z.of_nat k') P
  end.

(** [encoderune] with its shifts and masks written as quotients and
    remainders. *)
Definition encoderune_arith (r : Z) : list Z :=
  if (0 <=? r) && (r <=? 127) then [r]
  else if (0 <=? r) && (r <=? 2047) then [192 + r / 64; 128 + r mod 64]
  else if (r <? 0) || (MaxRune <? r)
          || ((surrogateMin <=? r) && (r <=? surrogateMax)) then
    [239; 191; 189]
  else if r <=? 65535 then
    [224 + r / 4096; 128 + (r / 64) mod 64; 128 + r mod 64]
  else
    [240 + r / 262144; 128 + (r / 4096) mod 64; 128 + (r / 64) mod 64;
     128 + r mod 64].

(** ** What [getSshPort] looks for *)

(** Among the services listed for the pod, the first one named
    [<pod>-ssh] has, as its first port entry that targets port 22, one with
    node port [n]. *)
Definition ssh_port_found (podName : string) (items : list Service) (n : Z) : Prop :=
  exists pre service post ppre portEntry ppost,
    items = pre ++ service :: post /\
    Forall (fun s => svc_Name s <> podName +:+ "-ssh") pre /\
    svc_Name service = podName +:+ "-ssh" /\
    svc_Ports service = ppre ++ portEntry :: ppost /\
    Forall (fun q => sp_TargetPort q <> FromInt 22) ppre /\
    sp_TargetPort portEntry = FromInt 22 /\
    sp_NodePort portEntry = n.

(** ** Sample pods and control planes *)

Local Open Scope nat_scope.

(** A control plane that lists one ssh service with the given node port and
    answers every exec with the given output. *)
Definition plane (nodePort : Z) (stdout stderr : list ascii) (err : option string)
  : Clientset unit :=
  mkClientset unit
    (fun _ _ _ k => (inl [], k))
    (fun _ _ k =>
       (inl [mkService "jupyter-web" [mkServicePort (FromInt 80) 30080];
             mkService "jupyter-ssh" [mkServicePort (FromInt 80) 30081;
                                       mkServicePort (FromInt 22) nodePort]], k))
    (fun _ _ _ _ k => (inr (stdout, stderr, err), k)).

Definition client_of (cs : Clientset unit) : K8sClient unit :=
  mkK8sClient unit cs 90 90 "sciencedata-dev" "/tmp/tokens".

Definition emptyCache : podCache := mkPodCache ∅ ∅.

(** A pod with one container listening on 22 and one annotation marked for
    extraction. *)
Definition jupyter (cs : Clientset unit) (c : podCache) : Pod unit :=
  mkPodM
    (mkPod "jupyter"
           [("description", "notebook"); ("token", "copyForFrontend")]
           [mkContainer "main" [mkContainerPort 22%Z; mkContainerPort 80%Z]]
           [])
    (client_of cs) c.

Definition emptyEnv : Env unit := mkEnv tt ∅ [] 0.

(** Exec fails outright; exec succeeds with no output; exec returns 5000
    bytes. *)
Definition exec_fails : Clientset unit :=
  plane 30022 [] [] (Some "connection refused").
Definition exec_empty : Clientset unit :=
  plane 30022 [] (list_ascii_of_string "cat: /tmp/token: No such file") None.
Definition exec_big : Clientset unit :=
  plane 30022 (repeat "a"%char 4096 ++ repeat "b"%char 904) [] None.

(** On the sample pod, with nothing cached before, [fillAllTmpFiles]
    ends with the marked key mapped to the empty string, the unmarked one
    absent, one line logged, and ten seconds slept in the retry mode. *)
Definition key_left_empty (cs : Clientset unit) (oneTry : bool) : Prop :=
  exists p1 e1,
    fillAllTmpFiles oneTry (jupyter cs emptyCache) emptyEnv = Some (p1, e1) /\
    tokens (cache p1) !! "token" = Some "" /\
    tokens (cache p1) !! "description" = None /\
    length (e_stdout e1) = 1 /\
    e_slept e1 = (if oneTry then 0 else 10).

(** Two user identifiers. *)
Definition alice : User unit :=
  NewUser "john.doe@example.com" "10.0.0.20" (client_of exec_fails).
Definition bob : User unit :=
  NewUser "john@doe.example.com" "10.0.0.21" (client_of exec_fails).

End ManagedSpec.

(* ===================================================================== *)
(** * More of the packages: labels, storage objects                      *)
(* ===================================================================== *)

Module UtilLabels.

(** [func GetUserIDFromLabels(labels map[string]string) string]. *)
Definition GetUserIDFromLabels (labels : gmap string string) : string :=
  match labels !! "user" with
  | None => ""
  | Some user =>
      if String.eqb user "" then ""
      else
        match labels !! "domain" with
        | Some domain =>
            if negb (String.eqb domain "") then user +:+ "@" +:+ domain
            else user
        | None => user
        end
  end.

End UtilLabels.

(** The parts of the API objects that [GetTargetStoragePV] and
    [GetTargetStoragePVC] fill in. *)
Module Apiv1Storage.

Record ObjectMeta : Type := mkObjectMeta {
  om_Name      : string;
  om_Namespace : string;
  om_Labels    : gmap string string
}.

Record ObjectReference : Type := mkObjectReference {
  or_Namespace : string;
  or_Name      : string;
  or_Kind      : string
}.

Record NFSVolumeSource : Type := mkNFS {
  nfs_Server : string;
  nfs_Path   : string
}.

Record PersistentVolumeSpec : Type := mkPVSpec {
  pvs_AccessModes      : list string;
  pvs_ReclaimPolicy    : string;
  pvs_StorageClassName : string;
  pvs_MountOptions     : list string;
  pvs_NFS              : NFSVolumeSource;
  pvs_ClaimRef         : ObjectReference;
  pvs_Capacity         : list (string * string)
}.

Record PersistentVolumeTarget : Type := mkPVTarget {
  pvt_ObjectMeta : ObjectMeta;
  pvt_Spec       : PersistentVolumeSpec
}.

Record PersistentVolumeClaimSpec : Type := mkPVCSpec {
  pvcs_AccessModes : list string;
  pvcs_VolumeName  : string;
  pvcs_Requests    : list (string * string)
}.

Record PersistentVolumeClaimTarget : Type := mkPVCTarget {
  pvct_ObjectMeta : ObjectMeta;
  pvct_Spec       : PersistentVolumeClaimSpec
}.

End Apiv1Storage.

Module ManagedStorage.
Import K8sClient Managed Apiv1Storage.

Section WithCluster.
Context {C : Type}.

(** [func (u *User) GetListOptions() metav1.ListOptions]: the label
    selector, empty for the user without identifier. *)
Definition GetListOptions (u : User C) : string :=
  if negb (String.eqb (UserID u) "")
  then "user=" +:+ Name u +:+ ",domain=" +:+ Domain u
  else "".

(** [func (u *User) GetTargetStoragePV() *apiv1.PersistentVolume]. *)
Definition GetTargetStoragePV (u : User C) : PersistentVolumeTarget :=
  mkPVTarget
    (mkObjectMeta (GetStoragePVName u) ""
       (<["name" := GetStoragePVName u]>
          (<["user" := Name u]>
             (<["domain" := Domain u]>
                (<["server" := SiloIP u]> ∅)))))
    (mkPVSpec ["ReadWriteMany"] "Retain" "nfs" ["hard"; "nfsvers=4.1"]
       (mkNFS (SiloIP u) ("/tank/storage/" +:+ UserID u))
       (mkObjectReference (Namespace (u_Client u)) (GetStoragePVName u)
                          "PersistentVolumeClaim")
       [("storage", "10Gi")]).

(** [func (u *User) GetTargetStoragePVC() *apiv1.PersistentVolumeClaim]. *)
Definition GetTargetStoragePVC (u : User C) : PersistentVolumeClaimTarget :=
  mkPVCTarget
    (mkObjectMeta (GetStoragePVName u) (Namespace (u_Client u))
       (<["name" := GetStoragePVName u]>
          (<["user" := UserID u]>
             (<["domain" := Domain u]>
                (<["server" := SiloIP u]> ∅)))))
    (mkPVCSpec ["ReadWriteMany"] (GetStoragePVName u) [("storage", "10Gi")]).

End WithCluster.

End ManagedStorage.

(* ===================================================================== *)
(** * Notions used by the further properties                              *)
(* ===================================================================== *)

Module MoreSpec.
Import Apiv1 K8sClient Go Managed ManagedSpec.

(** The byte [c] occurs in [s]. *)
Fixpoint has_byte (c : ascii) (s : string) : bool :=
  match s with
  | EmptyString => false
  | String x rest => Ascii.eqb x c || has_byte c rest
  end.

(** The bytes that [GetUserString] maps to the same byte. *)
Definition joiner (c : ascii) : bool :=
  Ascii.eqb c "@" || Ascii.eqb c "." || Ascii.eqb c "-".

(** What the two replacements of [GetUserString] make of one byte. *)
Definition user_byte (x : ascii) : ascii :=
  let y := if Ascii.eqb x "@" then "-"%char else x in
  if Ascii.eqb y "." then "-"%char else y.

(** Two identifiers of the same length that agree byte by byte, except
    that one may have any of [@], [.], [-] where the other has another of
    them. *)
Fixpoint similar (a b : string) : bool :=
  match a, b with
  | EmptyString, EmptyString => true
  | String x a', String y b' =>
      (Ascii.eqb x y || (joiner x && joiner y)) && similar a' b'
  | _, _ => false
  end.

(** The send of a schedule item is not an external [Send(false)]. *)
Definition sends_true_only (a : Util.sched) : bool :=
  match a with
  | Util.ExtSend v => v
  | _ => true
  end.

(** [j] attempts to read [/tmp/key] fail, each followed by a sleep of one
    second, and the next attempt yields [value], leaving the environment
    [e']. *)
Inductive succeeds_after {C} (p : Pod C) (key : string)
  : nat -> Env C -> string -> Env C -> Prop :=
| sa_now e value e' :
    getTmpFile p key e = Some ((value, None), e') ->
    succeeds_after p key 0 e value e'
| sa_later j e x msg e1 value e' :
    getTmpFile p key e = Some ((x, Some msg), e1) ->
    succeeds_after p key j (e_Sleep 1 e1) value e' ->
    succeeds_after p key (S j) e value e'.

(** [n] attempts in a row fail, each followed by a sleep of one second;
    [last] is the error of the last one ([start] when [n] is 0) and [e']
    the environment after the last sleep. *)
Inductive fails_in_a_row {C} (p : Pod C) (key : string)
  : nat -> option string -> Env C -> option string -> Env C -> Prop :=
| fr_none start e : fails_in_a_row p key 0 start e start e
| fr_more n start e x msg e1 last e' :
    getTmpFile p key e = Some ((x, Some msg), e1) ->
    fails_in_a_row p key n (Some msg) (e_Sleep 1 e1) last e' ->
    fails_in_a_row p key (S n) start e last e'.

(** A control plane whose state counts the exec calls made so far; the
    file appears once [ready] calls have failed. *)
Definition slow_plane (ready : nat) (contents : list ascii) : Clientset nat :=
  mkClientset nat
    (fun _ _ _ k => (inl [], k))
    (fun _ _ k => (inl [], k))
    (fun _ _ _ _ k =>
       (inr (if k <? ready then [] else contents, [], None), S k)).

Definition slow_pod (ready : nat) : Pod nat :=
  mkPodM
    (mkPod "jupyter" [("token", "copyForFrontend")]
           [mkContainer "main" [mkContainerPort 22%Z]] [])
    (mkK8sClient nat (slow_plane ready (list_ascii_of_string "s3cr3t"))
                 90 90 "sciencedata-dev" "/tmp/tokens")
    emptyCache.

Definition slowEnv : Env nat := mkEnv 0 ∅ [] 0.

(** A pod without containers. *)
Definition bare_pod : Pod unit :=
  mkPodM (mkPod "bare" [("token", "copyForFrontend")] [] [])
         (client_of exec_fails) emptyCache.

(** A control plane that lists two services named after the pod's ssh
    service: the first has no port that targets 22 as an integer (its
    target is the string "22"), the second has one. *)
Definition shadow_plane : Clientset unit :=
  mkClientset unit
    (fun _ _ _ k => (inl [], k))
    (fun _ _ k =>
       (inl [mkService "jupyter-web" [mkServicePort (FromInt 80) 30080];
             mkService "jupyter-ssh" [mkServicePort (mkIntOrString 1 0 "22") 30021];
             mkService "jupyter-ssh" [mkServicePort (FromInt 22) 30022]], k))
    (fun _ _ _ _ k => (inr ([], [], None), k)).

End MoreSpec.

(* ===================================================================== *)
(** * Properties of package util                                          *)
(* ===================================================================== *)

Module UtilProps.
Import Util UtilInv.

Lemma upd_same f g p : upd f g p g = p.
Proof. unfold upd. now rewrite Nat.eqb_refl. Qed.

Lemma upd_other f g p g' : g' <> g -> upd f g p g' = f g'.
Proof. intros H. unfold upd. now apply Nat.eqb_neq in H as ->. Qed.

Lemma note_first f l :
  fold_left note_step l f = match f with Some _ => f | None => first_send l end.
Proof.
  revert f. induction l as [|a l IH]; intros f; simpl.
  - now destruct f.
  - rewrite IH. destruct a, f; simpl; reflexivity.
Qed.

Lemma Inv_init timeout : Inv None (NewReadyChannel timeout).
Proof. split; simpl; [intros g H; discriminate .. | reflexivity]. Qed.

Lemma Send_mutex v t : mutex (Send v t) = mutex t.
Proof. unfold Send. now destruct (ch t). Qed.

Lemma Send_receivedYet v t : receivedYet (Send v t) = receivedYet t.
Proof. unfold Send. now destruct (ch t). Qed.

Lemma Send_firstValue v t : firstValue (Send v t) = firstValue t.
Proof. unfold Send. now destruct (ch t). Qed.

Lemma Send_ch v t : ch (Send v t) = note (ch t) v.
Proof. unfold Send. destruct (ch t) eqn:E; simpl; congruence. Qed.

(** A send keeps the invariant, noting its value if it is the first. *)
Lemma Inv_send f s v tm :
  Inv f s -> Inv (note f v) (mkSys (Send v (rc s)) (pcs s) (now s) tm).
Proof.
  intros [Hc Hh Hv]. split; simpl.
  - intros g Hg. rewrite Send_mutex. auto.
  - intros g Hg. rewrite Send_mutex in Hg. auto.
  - unfold holder_pc in *. simpl. rewrite Send_mutex, Send_receivedYet,
      Send_firstValue, Send_ch.
    destruct (match mutex (rc s) with Some h => pcs s h | None => Idle end);
      destruct (receivedYet (rc s)); destruct f; destruct (ch (rc s));
      simpl in *; intuition (subst; simpl; congruence).
Qed.

(** The invariant does not depend on the clock or the timer. *)
Lemma Inv_time f s n tm :
  Inv f s -> Inv f (mkSys (rc s) (pcs s) n tm).
Proof. intros [Hc Hh Hv]. split; simpl; auto. Qed.

Ltac upd_cases :=
  repeat match goal with
  | |- context [upd _ ?g _ ?g] => rewrite upd_same
  | H : context [upd _ ?g _ ?g] |- _ => rewrite upd_same in H
  | |- context [upd _ ?g _ ?g'] =>
      destruct (Nat.eq_dec g' g);
      [subst; rewrite upd_same | rewrite upd_other by assumption]
  | H : context [upd _ ?g _ ?g'] |- _ =>
      destruct (Nat.eq_dec g' g);
      [subst; rewrite upd_same in H | rewrite upd_other in H by assumption]
  end.

(** Every enabled step keeps the invariant, and a value returned by
    [Receive] is the first value sent. *)
Lemma step_Inv f s a s' o :
  Inv f s -> step s a = Some (s', o) ->
  Inv (note_step f a) s' /\ (forall g v, In (Ret g v) o -> f = Some v).
Proof.
  intros HI Hs. destruct a as [v| | |g|g]; simpl in Hs.
  - inversion Hs; subst. split; [now apply Inv_send | intros ? ? []].
  - destruct (timer s) as [d|]; [|discriminate].
    destruct (d <=? now s); inversion Hs; subst.
    split; [now apply Inv_send | intros ? ? []].
  - assert (s' = mkSys (rc s) (pcs s) (S (now s)) (timer s) /\ o = []) as [-> ->].
    { destruct (timer s) as [d|]; [destruct (d <=? now s)|]; now inversion Hs. }
    split; [now apply Inv_time | intros ? ? []].
  - destruct (pcs s g) eqn:Hg; inversion Hs; subst; clear Hs.
    split; [|intros ? ? []]. destruct HI as [Hc Hh Hv].
    assert (Hm : mutex (rc s) <> Some g).
    { intros E. apply Hh in E. rewrite Hg in E. discriminate. }
    split; simpl.
    + intros g' Hg'. upd_cases; [discriminate | auto].
    + intros g' Hg'. upd_cases; [congruence | auto].
    + unfold holder_pc in *. simpl. destruct (mutex (rc s)) as [h|]; [|exact Hv].
      upd_cases; [congruence | exact Hv].
  - destruct HI as [Hc Hh Hv]. unfold holder_pc in Hv.
    destruct (pcs s g) eqn:Hg.
    + inversion Hs; subst. split; [now split | intros ? ? []].
    + unfold lock in Hs. destruct (mutex (rc s)) eqn:Hm; inversion Hs; subst; clear Hs.
      split; [|intros ? ? []]. split; simpl.
      * intros g' Hg'. upd_cases; [reflexivity|]. apply Hc in Hg'. congruence.
      * intros g' Hg'. inversion Hg'; subst. now upd_cases.
      * unfold holder_pc. simpl. upd_cases. exact Hv.
    + assert (Hm : mutex (rc s) = Some g) by (apply Hc; now rewrite Hg).
      rewrite Hm, Hg in Hv.
      destruct (receivedYet (rc s)) eqn:Hr; inversion Hs; subst; clear Hs.
      * split.
        -- split; simpl.
           ++ intros g' Hg'. upd_cases; [discriminate|]. apply Hc in Hg'. congruence.
           ++ intros g' Hg'. discriminate.
           ++ unfold holder_pc. simpl. now rewrite Hr.
        -- intros g' v [E|[]]. now inversion E; subst.
      * split; [|intros ? ? []]. split; simpl.
        -- intros g' Hg'. upd_cases; [assumption|]. auto.
        -- intros g' Hg'. rewrite Hm in Hg'. inversion Hg'; subst. now upd_cases.
        -- unfold holder_pc. simpl. rewrite Hm. upd_cases. now split.
    + assert (Hm : mutex (rc s) = Some g) by (apply Hc; now rewrite Hg).
      rewrite Hm, Hg in Hv. destruct Hv as [Hr Hch].
      unfold chan_recv in Hs. destruct (ch (rc s)) as [v|] eqn:Hb; inversion Hs; subst; clear Hs.
      split; [|intros ? ? []]. split; simpl.
      * intros g' Hg'. upd_cases; [assumption|]. auto.
      * intros g' Hg'. rewrite Hm in Hg'. inversion Hg'; subst. now upd_cases.
      * unfold holder_pc. simpl. rewrite Hm. upd_cases. now split.
    + assert (Hm : mutex (rc s) = Some g) by (apply Hc; now rewrite Hg).
      rewrite Hm, Hg in Hv. destruct Hv as [Hr Hf].
      inversion Hs; subst; clear Hs.
      split; [|intros ? ? []]. split; simpl.
      * intros g' Hg'. upd_cases; [assumption|]. auto.
      * intros g' Hg'. rewrite Hm in Hg'. inversion Hg'; subst. now upd_cases.
      * unfold holder_pc. simpl. rewrite Hm. upd_cases. now split.
    + assert (Hm : mutex (rc s) = Some g) by (apply Hc; now rewrite Hg).
      rewrite Hm, Hg in Hv. destruct Hv as [Hr Hf].
      inversion Hs; subst; clear Hs. split.
      * split; simpl.
        -- intros g' Hg'. upd_cases; [discriminate|]. apply Hc in Hg'. congruence.
        -- intros g' Hg'. discriminate.
        -- unfold holder_pc. simpl. now rewrite Hr.
      * intros g' v [E|[]]. now inversion E; subst.
Qed.

(** Along every schedule the invariant is kept, and everything returned
    is the first value sent. *)
Lemma run_Inv (l : list sched) : forall (f : option bool) (s s' : Sys) (o : list obs),
  Inv f s -> run l s = Some (s', o) ->
  Inv (fold_left note_step l f) s' /\
  (forall g v, In (Ret g v) o -> fold_left note_step l f = Some v).
Proof.
  induction l as [|a l IH]; intros f s s' o HI Hr; simpl in Hr.
  - inversion Hr; subst. split; [assumption | intros ? ? []].
  - destruct (step s a) as [[s1 o1]|] eqn:Hs; [|discriminate].
    destruct (run l s1) as [[s2 o2]|] eqn:Hr2; inversion Hr; subst; clear Hr.
    destruct (step_Inv _ _ _ _ _ HI Hs) as [HI1 Ho1].
    destruct (IH _ _ _ _ HI1 Hr2) as [HI2 Ho2].
    simpl. split; [assumption|].
    intros g v Hin. apply in_app_or in Hin as [Hin|Hin]; [|exact (Ho2 g v Hin)].
    apply Ho1 in Hin. subst f. rewrite note_first.
    destruct a; reflexivity.
Qed.

Lemma run_app l1 l2 s :
  run (l1 ++ l2) s =
  match run l1 s with
  | None => None
  | Some (s1, o1) =>
      match run l2 s1 with
      | None => None
      | Some (s2, o2) => Some (s2, o1 ++ o2)
      end
  end.
Proof.
  revert s. induction l1 as [|a l1 IH]; intros s; simpl.
  - destruct (run l2 s) as [[s2 o2]|]; reflexivity.
  - destruct (step s a) as [[s1 o1]|]; [|reflexivity].
    rewrite IH. destruct (run l1 s1) as [[s2 o2]|]; [|reflexivity].
    destruct (run l2 s2) as [[s3 o3]|]; [|reflexivity].
    now rewrite app_assoc.
Qed.

Lemma first_send_app l1 l2 :
  first_send (l1 ++ l2) =
  match first_send l1 with Some v => Some v | None => first_send l2 end.
Proof.
  induction l1 as [|a l1 IH]; simpl; [now destruct (first_send l2)|].
  destruct a; auto.
Qed.

(** Once the buffer is dead it stays dead. *)
Lemma ch_dead_step f s a s' o :
  Inv f s -> ch_dead s -> step s a = Some (s', o) -> ch_dead s'.
Proof.
  intros HI Hd Hs.
  destruct HI as [Hc Hh Hv]. unfold ch_dead, holder_pc in *.
  destruct a as [v| | |g|g]; simpl in Hs.
  - inversion Hs; subst; simpl in *. rewrite Send_receivedYet, Send_mutex. exact Hd.
  - destruct (timer s) as [d|]; [|discriminate].
    destruct (d <=? now s); inversion Hs; subst; simpl in *.
    rewrite Send_receivedYet, Send_mutex. exact Hd.
  - destruct (timer s) as [d|]; [destruct (d <=? now s)|]; inversion Hs; subst;
      simpl; exact Hd.
  - destruct (pcs s g) eqn:Hg; inversion Hs; subst; clear Hs; simpl in *.
    destruct Hd as [Hd|[v Hd]]; [now left | right; exists v].
    destruct (mutex (rc s)) as [h|]; [|exact Hd].
    upd_cases; [|exact Hd]. rewrite Hg in Hd. destruct Hd; discriminate.
  - destruct (pcs s g) eqn:Hg.
    + inversion Hs; subst. exact Hd.
    + unfold lock in Hs. destruct (mutex (rc s)) eqn:Hm; inversion Hs; subst; clear Hs.
      simpl in *. destruct Hd as [Hd|[v [Hd|Hd]]]; try discriminate. now left.
    + assert (Hm : mutex (rc s) = Some g) by (apply Hc; now rewrite Hg).
      rewrite Hm, Hg in Hd, Hv.
      destruct Hd as [Hd|[v [Hd|Hd]]]; try discriminate.
      rewrite Hd in Hs. inversion Hs; subst; simpl. now left.
    + assert (Hm : mutex (rc s) = Some g) by (apply Hc; now rewrite Hg).
      rewrite Hm, Hg in Hd, Hv. destruct Hv as [Hr _].
      destruct Hd as [Hd|[v [Hd|Hd]]]; congruence.
    + inversion Hs; subst; simpl. now left.
    + assert (Hm : mutex (rc s) = Some g) by (apply Hc; now rewrite Hg).
      rewrite Hm, Hg in Hv. destruct Hv as [Hr _].
      inversion Hs; subst; simpl. now left.
Qed.

Ltac solve_same :=
  unfold same_but_ch; simpl; repeat split; try congruence;
  match goal with
  | E : forall g, pcs _ g = pcs _ g |- _ => intros ?; unfold upd; now rewrite E
  end.

(** The relation between a run and the same run with one later [Send]
    left out: the states agree except possibly on a dead buffer. *)
Lemma step_sim f s1 s2 a s1' o :
  Inv f s1 ->
  same_but_ch s1 s2 -> (ch (rc s1) = ch (rc s2) \/ ch_dead s1) ->
  step s1 a = Some (s1', o) ->
  exists s2', step s2 a = Some (s2', o) /\ same_but_ch s1' s2' /\
              (ch (rc s1') = ch (rc s2') \/ ch_dead s1').
Proof.
  intros HI (Er & Ef & Em & Ep & En & Et) Hch Hs.
  assert (Hdead : ch_dead s1 -> ch_dead s1')
    by (intros Hd; eapply ch_dead_step; eauto).
  assert (Hch' : ch (rc s1') = ch (rc s1) -> ch (rc s2) = ch (rc s1) \/ ch_dead s1')
    by (intros _; destruct Hch; auto).
  destruct HI as [Hc Hh Hv]. unfold holder_pc in Hv.
  destruct a as [v| | |g|g]; simpl in Hs |- *.
  - inversion Hs; subst; clear Hs. eexists; split; [reflexivity|].
    split.
    + unfold same_but_ch; simpl.
      rewrite !Send_receivedYet, !Send_firstValue, !Send_mutex. auto 10.
    + simpl in *. rewrite !Send_ch. destruct Hch as [->|Hd]; auto.
  - rewrite <- Et, <- En. destruct (timer s1) as [d|]; [|discriminate].
    destruct (d <=? now s1); inversion Hs; subst; clear Hs.
    eexists; split; [reflexivity|]. split.
    + unfold same_but_ch; simpl.
      rewrite !Send_receivedYet, !Send_firstValue, !Send_mutex. auto 10.
    + simpl in *. rewrite !Send_ch. destruct Hch as [->|Hd]; auto.
  - rewrite <- Et, <- En.
    assert (s1' = mkSys (rc s1) (pcs s1) (S (now s1)) (timer s1) /\ o = []) as [-> ->].
    { destruct (timer s1) as [d|]; [destruct (d <=? now s1)|]; now inversion Hs. }
    exists (mkSys (rc s2) (pcs s2) (S (now s1)) (timer s1)). split.
    { destruct (timer s1) as [d|]; [destruct (d <=? now s1)|]; try reflexivity.
      discriminate. }
    split; [unfold same_but_ch; simpl; auto 10|].
    simpl in *. destruct Hch; auto.
  - rewrite <- Ep. destruct (pcs s1 g) eqn:Hg; inversion Hs; subst; clear Hs.
    eexists; split; [reflexivity|]. split.
    + solve_same.
    + simpl in *. destruct Hch; auto.
  - rewrite <- Ep. destruct (pcs s1 g) eqn:Hg.
    + inversion Hs; subst; clear Hs. eexists; split; [reflexivity|].
      split; [unfold same_but_ch; auto 10 | assumption].
    + unfold lock in *. rewrite <- Em.
      destruct (mutex (rc s1)) eqn:Hm; inversion Hs; subst; clear Hs.
      eexists; split; [reflexivity|]. split.
      * solve_same.
      * simpl in *. destruct Hch; auto.
    + rewrite <- Er, <- Ef.
      destruct (receivedYet (rc s1)) eqn:Hr; inversion Hs; subst; clear Hs;
        (eexists; split; [reflexivity|]); split.
      * solve_same.
      * simpl in *. destruct Hch; auto.
      * solve_same.
      * simpl in *. destruct Hch; auto.
    + assert (Hm : mutex (rc s1) = Some g) by (apply Hc; now rewrite Hg).
      rewrite Hm, Hg in Hv. destruct Hv as [Hr _].
      assert (Hnd : ~ ch_dead s1).
      { unfold ch_dead, holder_pc. rewrite Hm, Hg.
        intros [Hd|[v [Hd|Hd]]]; congruence. }
      destruct Hch as [Hch|Hd]; [|contradiction].
      unfold chan_recv in *. rewrite <- Hch.
      destruct (ch (rc s1)) as [v|] eqn:Hb; inversion Hs; subst; clear Hs.
      eexists; split; [reflexivity|]. split.
      * solve_same.
      * simpl. now left.
    + inversion Hs; subst; clear Hs. eexists; split; [reflexivity|]. split.
      * solve_same.
      * simpl in *. destruct Hch; auto.
    + inversion Hs; subst; clear Hs. eexists; split; [reflexivity|]. split.
      * solve_same.
      * simpl in *. destruct Hch; auto.
Qed.

Lemma run_sim l : forall f s1 s2 s1' o,
  Inv f s1 ->
  same_but_ch s1 s2 -> (ch (rc s1) = ch (rc s2) \/ ch_dead s1) ->
  run l s1 = Some (s1', o) ->
  exists s2', run l s2 = Some (s2', o) /\ same_but_ch s1' s2'.
Proof.
  induction l as [|a l IH]; intros f s1 s2 s1' o HI Hsame Hch Hr; simpl in Hr |- *.
  - inversion Hr; subst. eauto.
  - destruct (step s1 a) as [[sa oa]|] eqn:Hs; [|discriminate].
    destruct (run l sa) as [[sb ob]|] eqn:Hr2; inversion Hr; subst; clear Hr.
    destruct (step_sim _ _ _ _ _ _ HI Hsame Hch Hs) as (sa2 & Hs2 & Hsame2 & Hch2).
    destruct (step_Inv _ _ _ _ _ HI Hs) as [HI2 _].
    destruct (IH _ _ _ _ _ HI2 Hsame2 Hch2 Hr2) as (sb2 & Hr3 & Hsame3).
    rewrite Hs2, Hr3. eauto.
Qed.

(** With a first value noted, a further [Send] leaves the state as it is,
    or only fills a buffer that is dead. *)
Lemma later_Send s v w :
  Inv (Some v) s ->
  ch (Send w (rc s)) = ch (rc s) \/
  ch_dead (mkSys (Send w (rc s)) (pcs s) (now s) (timer s)).
Proof.
  intros [Hc Hh Hv]. unfold ch_dead, holder_pc in *. simpl.
  rewrite Send_receivedYet, Send_mutex, Send_ch.
  destruct (match mutex (rc s) with Some h => pcs s h | None => Idle end) eqn:Hp.
  1-3: destruct (receivedYet (rc s)); [right; now left | rewrite Hv; now left].
  - destruct Hv as [_ Hv]. rewrite Hv. now left.
  - right; right. eauto.
  - right; right. eauto.
Qed.

Lemma run_from_new timeout l s' o :
  run l (NewReadyChannel timeout) = Some (s', o) ->
  Inv (first_send l) s' /\ (forall g v, In (Ret g v) o -> first_send l = Some v).
Proof.
  intros Hr. pose proof (run_Inv l None _ _ _ (Inv_init timeout) Hr) as H.
  now rewrite note_first in H.
Qed.

(** With no call of [Receive] in progress, the resolved value is the
    first value sent. *)
Lemma Inv_resolved f s :
  Inv f s -> mutex (rc s) = None -> resolved (rc s) = f.
Proof.
  intros [_ _ Hv] Hm. unfold holder_pc in Hv. rewrite Hm in Hv.
  unfold resolved. destruct (receivedYet (rc s)); congruence.
Qed.


(** ** The timer *)

Lemma goroutine_steps_time l : forall s s' o,
  forallb is_goroutine_step l = true -> run l s = Some (s', o) ->
  now s' = now s /\ timer s' = timer s.
Proof.
  induction l as [|a l IH]; intros s s' o Hl Hr; simpl in *.
  - now inversion Hr.
  - apply andb_prop in Hl as [Ha Hl].
    destruct (step s a) as [[s1 o1]|] eqn:Hs; [|discriminate].
    destruct (run l s1) as [[s2 o2]|] eqn:Hr2; inversion Hr; subst; clear Hr.
    destruct (IH _ _ _ Hl Hr2) as [-> ->].
    destruct a as [v| | |g|g]; try discriminate; simpl in Hs.
    + destruct (pcs s g); inversion Hs; subst; auto.
    + unfold lock, chan_recv in Hs.
      destruct (pcs s g); try destruct (mutex (rc s)); try destruct (receivedYet (rc s));
        try destruct (ch (rc s)); inversion Hs; subst; auto.
Qed.

Lemma goroutine_steps_timeless l :
  forallb is_goroutine_step l = true -> forallb timeless l = true.
Proof.
  induction l as [|a l IH]; simpl; [reflexivity|].
  intros H. apply andb_prop in H as [Ha Hl]. rewrite IH by assumption.
  now destruct a.
Qed.

Lemma timer_none_run l : forall s s' o,
  run l s = Some (s', o) -> timer s = None -> timer s' = None.
Proof.
  induction l as [|a l IH]; intros s s' o Hr Ht; simpl in Hr.
  - now inversion Hr; subst.
  - destruct (step s a) as [[s1 o1]|] eqn:Hs; [|discriminate].
    destruct (run l s1) as [[s2 o2]|] eqn:Hr2; inversion Hr; subst; clear Hr.
    apply (IH _ _ _ Hr2).
    destruct a as [v| | |g|g]; simpl in Hs; rewrite ?Ht in Hs.
    + now inversion Hs.
    + discriminate.
    + now inversion Hs.
    + destruct (pcs s g); now inversion Hs.
    + unfold lock, chan_recv in Hs.
      destruct (pcs s g); try destruct (mutex (rc s)); try destruct (receivedYet (rc s));
        try destruct (ch (rc s)); inversion Hs; subst; auto.
Qed.

(** The clock does not pass the deadline while the timer is pending, and
    once the timer has run a value has been sent. *)
Lemma timer_run l : forall s s' o d,
  run l s = Some (s', o) -> timer s = Some d -> now s <= d ->
  (timer s' = Some d /\ now s' <= d) \/ (timer s' = None /\ first_send l <> None).
Proof.
  induction l as [|a l IH]; intros s s' o d Hr Ht Hn; simpl in Hr.
  - inversion Hr; subst. now left.
  - destruct (step s a) as [[s1 o1]|] eqn:Hs; [|discriminate].
    destruct (run l s1) as [[s2 o2]|] eqn:Hr2; inversion Hr; subst; clear Hr.
    destruct a as [v| | |g|g]; simpl in Hs.
    + inversion Hs; subst; clear Hs.
      destruct (IH _ _ _ d Hr2 Ht Hn) as [H|[H _]]; [now left|].
      right. split; [assumption | discriminate].
    + rewrite Ht in Hs. destruct (d <=? now s); inversion Hs; subst; clear Hs.
      right. split; [|discriminate]. now apply (timer_none_run _ _ _ _ Hr2).
    + rewrite Ht in Hs.
      destruct (d <=? now s) eqn:Hd; inversion Hs; subst; clear Hs.
      apply Nat.leb_gt in Hd.
      apply (IH _ _ _ d Hr2); simpl; [reflexivity | lia].
    + destruct (pcs s g); inversion Hs; subst; clear Hs.
      apply (IH _ _ _ d Hr2); simpl; assumption.
    + assert (timer s1 = timer s /\ now s1 = now s) as [Et En].
      { unfold lock, chan_recv in Hs.
        destruct (pcs s g); try destruct (mutex (rc s)); try destruct (receivedYet (rc s));
          try destruct (ch (rc s)); inversion Hs; subst; auto. }
      apply (IH _ _ _ d Hr2); congruence.
Qed.

Lemma first_send_no_ext l :
  forallb (fun a => negb (is_ext_send a)) l = true ->
  first_send l = None \/ first_send l = Some false.
Proof.
  induction l as [|a l IH]; simpl; [now left|].
  intros H. apply andb_prop in H as [Ha Hl].
  destruct a; try discriminate; auto.
Qed.

(** ** Progress: a resolved channel blocks nobody *)

Ltac conj_split := repeat match goal with |- _ /\ _ => split end.

Lemma Fin_step v s g a s1 :
  is_goroutine_step a = true ->
  step s a = Some (s1, []) ->
  (forall g', g' <> g -> pcs s1 g' = pcs s g') ->
  Fin v s1 g -> Fin v s g.
Proof.
  intros Ha Hs Hp (k & s2 & o2 & Hk & Hr & Hin & Hm & Hp2 & HI).
  exists (a :: k), s2, o2. simpl. rewrite Ha, Hk, Hs, Hr. simpl.
  conj_split; auto. intros g' Hg'. rewrite Hp2, Hp; auto.
Qed.

Lemma fin_Store2 v s g v' :
  Inv (Some v) s -> pcs s g = AtStore2 v' -> Fin v s g.
Proof.
  intros HI Hg.
  assert (Hs : step s (Step g) =
               Some (mkSys (unlock (set_firstValue v' (rc s)))
                           (upd (pcs s) g Idle) (now s) (timer s), [Ret g v']))
    by (simpl; now rewrite Hg).
  destruct (step_Inv _ _ _ _ _ HI Hs) as [HI1 Ho].
  assert (v' = v) as -> by (specialize (Ho g v' (or_introl eq_refl)); congruence).
  exists [Step g]. do 2 eexists. simpl. rewrite Hg. split; [reflexivity|].
  split; [reflexivity|]. simpl. conj_split; auto.
  intros g' Hg'. now rewrite upd_other.
Qed.

Lemma fin_Store1 v s g v' :
  Inv (Some v) s -> pcs s g = AtStore1 v' -> Fin v s g.
Proof.
  intros HI Hg.
  assert (Hs : step s (Step g) =
               Some (mkSys (set_receivedYet true (rc s))
                           (upd (pcs s) g (AtStore2 v')) (now s) (timer s), []))
    by (simpl; now rewrite Hg).
  destruct (step_Inv _ _ _ _ _ HI Hs) as [HI1 _].
  apply (Fin_step v s g (Step g) _ eq_refl Hs).
  - intros g' Hg'. simpl. now rewrite upd_other.
  - apply (fin_Store2 _ _ _ v' HI1). simpl. apply upd_same.
Qed.

Lemma fin_Recv v s g :
  Inv (Some v) s -> pcs s g = AtRecv -> Fin v s g.
Proof.
  intros HI Hg.
  assert (Hch : ch (rc s) = Some v).
  { destruct HI as [Hc _ Hv]. unfold holder_pc in Hv.
    rewrite (Hc g) in Hv by (now rewrite Hg). rewrite Hg in Hv. tauto. }
  assert (Hs : step s (Step g) =
               Some (mkSys (set_ch None (rc s))
                           (upd (pcs s) g (AtStore1 v)) (now s) (timer s), []))
    by (simpl; unfold chan_recv; now rewrite Hg, Hch).
  destruct (step_Inv _ _ _ _ _ HI Hs) as [HI1 _].
  apply (Fin_step v s g (Step g) _ eq_refl Hs).
  - intros g' Hg'. simpl. now rewrite upd_other.
  - apply (fin_Store1 _ _ _ v HI1). simpl. apply upd_same.
Qed.

Lemma fin_Check v s g :
  Inv (Some v) s -> pcs s g = AtCheck -> Fin v s g.
Proof.
  intros HI Hg. destruct (receivedYet (rc s)) eqn:Hr.
  - assert (Hs : step s (Step g) =
                 Some (mkSys (unlock (rc s)) (upd (pcs s) g Idle) (now s) (timer s),
                       [Ret g (firstValue (rc s))]))
      by (simpl; now rewrite Hg, Hr).
    destruct (step_Inv _ _ _ _ _ HI Hs) as [HI1 Ho].
    assert (firstValue (rc s) = v) as Hfv
      by (specialize (Ho g _ (or_introl eq_refl)); congruence).
    exists [Step g]. do 2 eexists. simpl. rewrite Hg, Hr. split; [reflexivity|].
    split; [reflexivity|]. rewrite Hfv in *. simpl. conj_split; auto.
    intros g' Hg'. now rewrite upd_other.
  - assert (Hs : step s (Step g) =
                 Some (mkSys (rc s) (upd (pcs s) g AtRecv) (now s) (timer s), []))
      by (simpl; now rewrite Hg, Hr).
    destruct (step_Inv _ _ _ _ _ HI Hs) as [HI1 _].
    apply (Fin_step v s g (Step g) _ eq_refl Hs).
    + intros g' Hg'. simpl. now rewrite upd_other.
    + apply (fin_Recv _ _ _ HI1). simpl. apply upd_same.
Qed.

Lemma fin_Lock v s g :
  Inv (Some v) s -> mutex (rc s) = None -> pcs s g = AtLock -> Fin v s g.
Proof.
  intros HI Hm Hg.
  assert (Hs : step s (Step g) =
               Some (mkSys (set_mutex (Some g) (rc s))
                           (upd (pcs s) g AtCheck) (now s) (timer s), []))
    by (simpl; unfold lock; now rewrite Hg, Hm).
  destruct (step_Inv _ _ _ _ _ HI Hs) as [HI1 _].
  apply (Fin_step v s g (Step g) _ eq_refl Hs).
  - intros g' Hg'. simpl. now rewrite upd_other.
  - apply (fin_Check _ _ _ HI1). simpl. apply upd_same.
Qed.

Lemma fin_Idle v s g :
  Inv (Some v) s -> mutex (rc s) = None -> pcs s g = Idle -> Fin v s g.
Proof.
  intros HI Hm Hg.
  assert (Hs : step s (Call g) =
               Some (mkSys (rc s) (upd (pcs s) g AtLock) (now s) (timer s), []))
    by (simpl; now rewrite Hg).
  destruct (step_Inv _ _ _ _ _ HI Hs) as [HI1 _].
  apply (Fin_step v s g (Call g) _ eq_refl Hs).
  - intros g' Hg'. simpl. now rewrite upd_other.
  - apply (fin_Lock _ _ _ HI1 Hm). simpl. apply upd_same.
Qed.

Lemma fin_free v s g :
  Inv (Some v) s -> mutex (rc s) = None -> Fin v s g.
Proof.
  intros HI Hm. destruct (pcs s g) eqn:Hg;
    try (destruct HI as [Hc _ _]; rewrite (Hc g) in Hm
           by (now rewrite Hg); discriminate).
  - now apply fin_Idle.
  - now apply fin_Lock.
Qed.

Lemma fin_holder v s g :
  Inv (Some v) s -> mutex (rc s) = Some g -> Fin v s g.
Proof.
  intros HI Hm. pose proof (inv_hold _ _ HI g Hm) as Hcr.
  destruct (pcs s g) eqn:Hg; try discriminate.
  - now apply fin_Check.
  - now apply fin_Recv.
  - eapply fin_Store1; eauto.
  - eapply fin_Store2; eauto.
Qed.

(** Once a value [v] has been sent, every goroutine, whether inside
    [Receive] or about to call it, can return [v] by steps of goroutines
    alone. *)
Lemma can_return v s g :
  Inv (Some v) s ->
  exists k s1 o1,
    forallb is_goroutine_step k = true /\
    run k s = Some (s1, o1) /\ In (Ret g v) o1.
Proof.
  intros HI. destruct (mutex (rc s)) as [h|] eqn:Hm.
  - destruct (Nat.eq_dec h g) as [->|Hne].
    + destruct (fin_holder v s g HI Hm) as (k & s1 & o1 & Hk & Hr & Hin & _).
      eauto 6.
    + destruct (fin_holder v s h HI Hm) as (k & s1 & o1 & Hk & Hr & _ & Hm1 & _ & HI1).
      destruct (fin_free v s1 g HI1 Hm1) as (k2 & s2 & o2 & Hk2 & Hr2 & Hin & _).
      exists (k ++ k2), s2, (o1 ++ o2). rewrite forallb_app, Hk, Hk2, run_app, Hr, Hr2.
      conj_split; auto. apply in_or_app. now right.
  - destruct (fin_free v s g HI Hm) as (k & s1 & o1 & Hk & Hr & Hin & _).
    eauto 6.
Qed.

(** C1.  On every ReadyChannel, under every interleaving of senders (event
    classifiers, combinators, the timeout timer) and of goroutines calling
    Receive: every call of Receive that returns, returns the first value
    ever passed to Send; once no call is in progress the resolved value is
    that first value; once a value has been sent every goroutine, inside
    Receive or about to call it, can complete the call and gets that value;
    and a Send made after the first one is a no-op: leaving it out of the
    schedule changes nothing that any Receive returns, and nothing of the
    state but possibly the contents of the buffer, which is never read
    again. *)
Theorem ReadyChannel_first_value_wins :
  forall (timeout : nat) (l : list sched) (s' : Sys) (o : list obs),
    run l (NewReadyChannel timeout) = Some (s', o) ->
    (forall g v, In (Ret g v) o -> first_send l = Some v) /\
    (mutex (rc s') = None -> resolved (rc s') = first_send l) /\
    (forall v g,
        first_send l = Some v ->
        exists k s'' o',
          forallb is_goroutine_step k = true /\
          run k s' = Some (s'', o') /\ In (Ret g v) o') /\
    (forall l1 w l2,
        l = l1 ++ ExtSend w :: l2 -> first_send l1 <> None ->
        exists s'',
          run (l1 ++ l2) (NewReadyChannel timeout) = Some (s'', o) /\
          same_but_ch s' s'').
Proof.
  intros timeout l s' o Hr.
  destruct (run_from_new _ _ _ _ Hr) as [HI Ho].
  split; [exact Ho|]. split; [|split].
  - intros Hm. now apply Inv_resolved.
  - intros v g Hv. rewrite Hv in HI. now apply can_return.
  - intros l1 w l2 -> Hf.
    rewrite run_app in Hr.
    destruct (run l1 (NewReadyChannel timeout)) as [[sa oa]|] eqn:Ha; [|discriminate].
    simpl in Hr.
    destruct (run l2 _) as [[sb ob]|] eqn:Hb; inversion Hr; subst; clear Hr.
    destruct (run_from_new _ _ _ _ Ha) as [HIa _].
    destruct (first_send l1) as [v|] eqn:Hv; [clear Hf|congruence].
    assert (HIb : Inv (Some v) (mkSys (Send w (rc sa)) (pcs sa) (now sa) (timer sa)))
      by (apply (Inv_send (Some v)); assumption).
    assert (Hsame0 : same_but_ch
              (mkSys (Send w (rc sa)) (pcs sa) (now sa) (timer sa)) sa).
    { unfold same_but_ch; simpl.
      rewrite Send_receivedYet, Send_firstValue, Send_mutex. auto 10. }
    pose proof (later_Send sa v w HIa) as Hlater.
    destruct (run_sim l2 (Some v) _ sa _ _ HIb Hsame0 Hlater Hb)
      as (s'' & Hr2 & Hsame).
    exists s''. rewrite run_app, Ha, Hr2. auto.
Qed.

(** A run with two receivers, an event and the timer. *)
Lemma ReadyChannel_first_value_wins_witness :
  first_send [Call 0; Step 0; Step 0; Call 1; ExtSend true; Step 0; Tick; Tick;
              TimerSend; Step 0; ExtSend false; Step 0; Step 1; Step 1]
  = Some true.
Proof.
  destruct (run [Call 0; Step 0; Step 0; Call 1; ExtSend true; Step 0; Tick; Tick;
                 TimerSend; Step 0; ExtSend false; Step 0; Step 1; Step 1]
                (NewReadyChannel 2)) as [[s' o]|] eqn:E.
  - apply (proj1 (ReadyChannel_first_value_wins 2 _ s' o E) 1 true).
    vm_compute in E. inversion E. simpl. auto.
  - vm_compute in E. discriminate E.
Defined.

(** C8.  A ReadyChannel made with timeout [T], under every interleaving.
    With no source but the timer ever calling Send: every Receive returns
    false, and from the moment the clock reaches [T] no caller is blocked any
    longer: every goroutine can complete its Receive with false without any
    time passing (the clock cannot pass [T] before the timer has sent).
    With a Send(true) before any other send, the timer's included: every
    Receive returns true and the channel stays resolved to true, whatever
    the timer sends later. *)
Theorem ReadyChannel_timeout :
  forall (T : nat) (l : list sched) (s' : Sys) (o : list obs),
    run l (NewReadyChannel T) = Some (s', o) ->
    (forallb (fun a => negb (is_ext_send a)) l = true ->
       (forall g v, In (Ret g v) o -> v = false) /\
       (T < now s' -> timer s' = None /\ first_send l = Some false) /\
       (T <= now s' ->
        forall g, exists k s'' o',
          forallb timeless k = true /\
          run k s' = Some (s'', o') /\ In (Ret g false) o' /\ now s'' = now s')) /\
    (forall l1 l2,
        l = l1 ++ ExtSend true :: l2 -> first_send l1 = None ->
        (forall g v, In (Ret g v) o -> v = true) /\
        (mutex (rc s') = None -> resolved (rc s') = Some true)).
Proof.
  intros T l s' o Hr.
  destruct (run_from_new _ _ _ _ Hr) as [HI Ho].
  pose proof (timer_run l _ _ _ T Hr eq_refl (Nat.le_0_l T)) as Ht.
  split.
  - intros Hne. pose proof (first_send_no_ext l Hne) as Hf.
    split; [|split].
    + intros g v Hin. apply Ho in Hin. destruct Hf; congruence.
    + intros Hlt. destruct Ht as [[_ Hle]|[Htm Hsent]]; [lia|].
      split; [assumption|]. destruct Hf; congruence.
    + intros Hle g. destruct Ht as [[Htm Hn]|[Htm Hsent]].
      * assert (Hs : step s' TimerSend =
                     Some (mkSys (Send false (rc s')) (pcs s') (now s') None, [])).
        { simpl. rewrite Htm. now apply Nat.leb_le in Hle as ->. }
        assert (HI1 : Inv (Some false)
                          (mkSys (Send false (rc s')) (pcs s') (now s') None)).
        { pose proof (Inv_send _ _ false None HI) as H.
          destruct Hf as [E|E]; rewrite E in H; exact H. }
        destruct (can_return _ _ g HI1) as (k & s2 & o2 & Hk & Hr2 & Hin).
        exists (TimerSend :: k), s2, o2.
        destruct (goroutine_steps_time _ _ _ _ Hk Hr2) as [En _].
        simpl forallb. simpl run. rewrite Htm.
        apply Nat.leb_le in Hle as ->. rewrite Hr2.
        rewrite (goroutine_steps_timeless _ Hk). auto.
      * assert (E : first_send l = Some false) by (destruct Hf; congruence).
        rewrite E in HI.
        destruct (can_return _ _ g HI) as (k & s2 & o2 & Hk & Hr2 & Hin).
        exists k, s2, o2.
        destruct (goroutine_steps_time _ _ _ _ Hk Hr2) as [En _].
        rewrite (goroutine_steps_timeless _ Hk). auto.
  - intros l1 l2 -> Hf.
    assert (E : first_send (l1 ++ ExtSend true :: l2) = Some true)
      by (rewrite first_send_app, Hf; reflexivity).
    split.
    + intros g v Hin. apply Ho in Hin. congruence.
    + intros Hm. rewrite <- E. now apply Inv_resolved.
Qed.

(** A caller blocked from the start is released by the timer at time 2. *)
Lemma ReadyChannel_timeout_witness :
  exists s' o,
    run [Call 0; Step 0; Step 0; Tick; Tick; TimerSend; Step 0; Step 0; Step 0]
        (NewReadyChannel 2) = Some (s', o) /\
    In (Ret 0 false) o /\
    (forall g v, In (Ret g v) o -> v = false).
Proof.
  destruct (run [Call 0; Step 0; Step 0; Tick; Tick; TimerSend; Step 0; Step 0; Step 0]
                (NewReadyChannel 2)) as [[s' o]|] eqn:E.
  - exists s', o. split; [reflexivity|]. split.
    + vm_compute in E. inversion E. simpl. auto.
    + apply (proj1 (ReadyChannel_timeout 2 _ s' o E)). reflexivity.
  - vm_compute in E. discriminate E.
Defined.

(** ** The combinator *)

Lemma run_cons a l s s1 o1 s2 o2 :
  step s a = Some (s1, o1) -> run l s1 = Some (s2, o2) ->
  run (a :: l) s = Some (s2, o1 ++ o2).
Proof. intros Hs Hr. simpl. now rewrite Hs, Hr. Qed.

Ltac run_one H :=
  eapply run_cons;
  [ cbn [step pcs rc now timer]; rewrite ?upd_same; unfold lock, chan_recv;
    simpl; rewrite ?H; simpl; reflexivity | ].

(** [Receive] as one function is what a goroutine does when it runs the
    statements of [Receive] with nobody scheduled in between. *)
Lemma Receive_is_run g s v t' :
  pcs s g = Idle -> Receive g (rc s) = Some (v, t') ->
  exists s',
    run [Call g; Step g; Step g; Step g; Step g; Step g] s = Some (s', [Ret g v]) /\
    rc s' = t' /\ (forall g', pcs s' g' = pcs s g').
Proof.
  intros Hg HR.
  enough (exists s' o,
             run [Call g; Step g; Step g; Step g; Step g; Step g] s = Some (s', o) /\
             o = [Ret g v] /\ rc s' = t' /\ (forall g', pcs s' g' = pcs s g'))
    as (s' & o & H1 & -> & H2). { eauto. }
  unfold Receive, lock, chan_recv in HR.
  destruct (mutex (rc s)) eqn:Hm; [discriminate|]. simpl in HR.
  destruct (receivedYet (rc s)) eqn:Hr.
  - inversion HR; subst; clear HR. do 2 eexists. split; [|split; [|split]].
    + run_one Hg. run_one Hm. run_one Hr.
      run_one Hr. run_one Hr. run_one Hr. reflexivity.
    + reflexivity.
    + reflexivity.
    + intros g'. simpl. unfold upd. destruct (Nat.eqb_spec g' g); congruence.
  - destruct (ch (rc s)) as [b|] eqn:Hb; [|discriminate].
    inversion HR; subst; clear HR. do 2 eexists. split; [|split; [|split]].
    + run_one Hg. run_one Hm. run_one Hr.
      run_one Hb. run_one Hr. run_one Hr. reflexivity.
    + reflexivity.
    + reflexivity.
    + intros g'. simpl. unfold upd. destruct (Nat.eqb_spec g' g); congruence.
Qed.

(** [Receive] on a resolved channel returns its value and leaves it
    resolved to that value. *)
Lemma Receive_resolved g t v :
  mutex t = None -> resolved t = Some v ->
  exists t', Receive g t = Some (v, t') /\ mutex t' = None /\ resolved t' = Some v.
Proof.
  intros Hm Hv. unfold Receive, lock, chan_recv, resolved in *. rewrite Hm. simpl.
  destruct (receivedYet t) eqn:Hr.
  - inversion Hv; subst. eexists. split; [reflexivity|]. simpl. now rewrite Hr.
  - rewrite Hv. eexists. split; [reflexivity|]. simpl. auto.
Qed.

(** [Receive] on an unresolved channel blocks. *)
Lemma Receive_unresolved g t : resolved t = None -> Receive g t = None.
Proof.
  unfold Receive, lock, chan_recv, resolved. intros H.
  destruct (mutex t); [reflexivity|]. simpl.
  destruct (receivedYet t); [discriminate|]. now rewrite H.
Qed.

Lemma ReceiveReadyChannels_loop_and g (vals : addr -> bool) :
  forall (inputChannels : list addr) (output : bool) (σ : store),
    (forall a, In a inputChannels ->
               mutex (σ a) = None /\ resolved (σ a) = Some (vals a)) ->
    exists σ',
      ReceiveReadyChannels_loop g inputChannels output σ
      = Some (output && forallb vals inputChannels, σ') /\
      (forall a, mutex (σ a) = None -> mutex (σ' a) = None) /\
      (forall a, resolved (σ' a) = resolved (σ a)).
Proof.
  induction inputChannels as [|a rest IH]; intros output σ H; simpl.
  - exists σ. rewrite andb_true_r. auto.
  - destruct (H a (or_introl eq_refl)) as [Hm Hv].
    destruct (Receive_resolved g _ _ Hm Hv) as (t' & -> & Hm' & Hv').
    assert (Hres : forall a', resolved (store_set σ a t' a') = resolved (σ a')).
    { intros a'. unfold store_set. destruct (Nat.eqb_spec a' a); congruence. }
    assert (Hmut : forall a', mutex (σ a') = None -> mutex (store_set σ a t' a') = None).
    { intros a'. unfold store_set. destruct (Nat.eqb_spec a' a); congruence. }
    destruct (IH (if negb (vals a) then false else output) (store_set σ a t'))
      as (σ' & -> & Hm2 & Hr2).
    { intros a' Hin. destruct (H a' (or_intror Hin)) as [Hma Hva].
      split; [now apply Hmut | now rewrite Hres]. }
    exists σ'. split; [|split].
    + f_equal. f_equal. destruct (vals a), output; reflexivity.
    + intros a' Ha'. auto.
    + intros a'. now rewrite Hr2, Hres.
Qed.

(** C2.  Given a list of ready channels (addresses may repeat), each
    resolved to [vals a]: ReceiveReadyChannels returns the conjunction of the
    resolved values, which is true exactly when every channel resolved true,
    false as soon as one resolved false (a timeout resolves to false like any
    other send), and true for the empty list.  CombineReadyChannels sends
    that same value into the output channel, which resolves to it when it
    had not been resolved before. *)
Theorem ReceiveReadyChannels_is_conjunction :
  forall (g : gid) (inputChannels : list addr) (σ : store) (vals : addr -> bool),
    (forall a, In a inputChannels ->
               mutex (σ a) = None /\ resolved (σ a) = Some (vals a)) ->
    exists (output : bool) (σ' : store),
      ReceiveReadyChannels g inputChannels σ = Some (output, σ') /\
      (output = true <-> forall a, In a inputChannels -> vals a = true) /\
      ((exists a, In a inputChannels /\ vals a = false) -> output = false) /\
      (inputChannels = [] -> output = true) /\
      (forall a, resolved (σ' a) = resolved (σ a)) /\
      (forall outputChannel : addr,
          CombineReadyChannels g inputChannels outputChannel σ
          = Some (store_set σ' outputChannel (Send output (σ' outputChannel))) /\
          (resolved (σ outputChannel) = None ->
           resolved (Send output (σ' outputChannel)) = Some output)).
Proof.
  intros g inputChannels σ vals H.
  destruct (ReceiveReadyChannels_loop_and g vals inputChannels true σ H)
    as (σ' & HR & Hm & Hres).
  simpl in HR. exists (forallb vals inputChannels), σ'.
  split; [exact HR|]. split; [|split; [|split; [|split]]].
  - rewrite forallb_forall. reflexivity.
  - intros (a & Hin & Hv). apply not_true_is_false. intros E.
    rewrite forallb_forall in E. rewrite (E a Hin) in Hv. discriminate.
  - intros ->. reflexivity.
  - exact Hres.
  - intros outputChannel. unfold CombineReadyChannels, ReceiveReadyChannels.
    rewrite HR.
    split; [reflexivity|]. intros Hn. rewrite <- Hres in Hn.
    unfold resolved in *. rewrite Send_receivedYet, Send_ch.
    destruct (receivedYet (σ' outputChannel)); [discriminate|].
    now rewrite Hn.
Qed.

(** Three inputs, one of them twice in the list and one timed out. *)
Lemma ReceiveReadyChannels_is_conjunction_witness :
  exists σ',
    ReceiveReadyChannels 7 [0; 1; 0]
      (fun a => if Nat.eqb a 0 then mkRC (Some true) false false None
                else mkRC None true false None)
    = Some (false, σ').
Proof.
  destruct (ReceiveReadyChannels_is_conjunction 7 [0; 1; 0]
              (fun a => if Nat.eqb a 0 then mkRC (Some true) false false None
                        else mkRC None true false None)
              (fun a => Nat.eqb a 0))
    as (output & σ' & HR & _ & Hfalse & _).
  - intros a [<-|[<-|[<-|[]]]]; split; reflexivity.
  - exists σ'. rewrite HR. f_equal. f_equal. apply Hfalse.
    exists 1. split; [simpl; auto | reflexivity].
Defined.

End UtilProps.

(* ===================================================================== *)
(** * Properties of package k8sclient                                     *)
(* ===================================================================== *)

Module K8sProps.
Import Apiv1 K8sClient K8sSpec.

Lemma fires_TrySend_Stop w : fires w (TrySend true (Stop w)).
Proof. unfold fires. simpl. destruct (w_ch w); auto. Qed.

Lemma podConditions_loop_ready p cs w :
  podConditions_loop p cs w =
  if match find (fun c => String.eqb (cond_Type c) PodReady) cs with
     | Some c => String.eqb (cond_Status c) ConditionTrue
     | None => false
     end
  then TrySend true (Stop (Printf ("READY POD: " +:+ pod_Name p) w))
  else w.
Proof.
  induction cs as [|c cs IH]; simpl; [reflexivity|].
  destruct (String.eqb (cond_Type c) PodReady); [reflexivity | exact IH].
Qed.

Lemma run_classifier_body c events w :
  run_classifier c events w = range_ResultChan (body_of c) events w.
Proof. destruct c; reflexivity. Qed.

(** On the terminal event the body stops the watcher and sends true. *)
Lemma body_terminal c e w :
  well_kinded c e = true -> terminal c e = true ->
  exists w1, body_of c e w = Some w1 /\ fires w w1.
Proof.
  unfold well_kinded, terminal.
  destruct c, e as [ty ob]; simpl;
    unfold signalPodReady_body, signalPVReady_body, signalPVCReady_body,
      signalDeleted_body; simpl.
  - destruct ty; try discriminate. destruct ob; try discriminate. intros _ Ht.
    rewrite podConditions_loop_ready. unfold pod_ready in Ht. rewrite Ht.
    eexists; split; [reflexivity|]. unfold fires; simpl. destruct (w_ch w); auto.
  - destruct ty; try discriminate. destruct ob; try discriminate. intros _ Ht.
    unfold VolumeAvailable. rewrite Ht. eexists; split; [reflexivity|].
    apply fires_TrySend_Stop.
  - destruct ty; try discriminate. destruct ob; try discriminate. intros _ Ht.
    unfold ClaimBound. rewrite Ht. eexists; split; [reflexivity|].
    apply fires_TrySend_Stop.
  - destruct ty; try discriminate. intros _ _.
    eexists; split; [reflexivity|]. apply fires_TrySend_Stop.
Qed.

(** Any other event is ignored. *)
Lemma body_other c e w :
  well_kinded c e = true -> terminal c e = false -> body_of c e w = Some w.
Proof.
  unfold well_kinded, terminal.
  destruct c, e as [ty ob]; simpl;
    unfold signalPodReady_body, signalPVReady_body, signalPVCReady_body,
      signalDeleted_body; simpl.
  - destruct ty; try reflexivity. destruct ob; try discriminate. intros _ Ht.
    rewrite podConditions_loop_ready. unfold pod_ready in Ht. now rewrite Ht.
  - destruct ty; try reflexivity. destruct ob; try discriminate. intros _ Ht.
    unfold VolumeAvailable. now rewrite Ht.
  - destruct ty; try reflexivity. destruct ob; try discriminate. intros _ Ht.
    unfold ClaimBound. now rewrite Ht.
  - destruct ty; try reflexivity. discriminate.
Qed.

Lemma range_stopped body events w :
  w_stopped w = true -> range_ResultChan body events w = Some w.
Proof. intros H. destruct events; simpl; [reflexivity | now rewrite H]. Qed.

(** No terminal event: every event is received and nothing else happens. *)
Lemma range_no_terminal c : forall events w,
  w_stopped w = false ->
  forallb (well_kinded c) events = true ->
  forallb (fun e => negb (terminal c e)) events = true ->
  exists w',
    range_ResultChan (body_of c) events w = Some w' /\
    w_stopped w' = false /\ w_sends w' = w_sends w /\
    w_received w' = w_received w + length events /\
    w_ch w' = w_ch w /\ w_timers w' = w_timers w.
Proof.
  induction events as [|e events IH]; intros w Hs Hk Ht; simpl in *.
  - exists w. rewrite Nat.add_0_r. auto 10.
  - apply andb_prop in Hk as [Hk1 Hk2]. apply andb_prop in Ht as [Ht1 Ht2].
    apply negb_true_iff in Ht1. rewrite Hs.
    rewrite (body_other c e _ Hk1 Ht1).
    destruct (IH (received w) Hs Hk2 Ht2) as (w' & -> & H1 & H2 & H3 & H4 & H5).
    exists w'. simpl in *. split; [reflexivity|].
    repeat split; try assumption. rewrite H3. simpl. lia.
Qed.

(** A first terminal event: the events before it are received and
    ignored, it makes the classifier send true and stop, and nothing after
    it is received. *)
Lemma range_first_terminal c pre e post w :
  w_stopped w = false ->
  forallb (well_kinded c) (pre ++ e :: post) = true ->
  forallb (fun e => negb (terminal c e)) pre = true ->
  terminal c e = true ->
  exists w',
    range_ResultChan (body_of c) (pre ++ e :: post) w = Some w' /\
    w_stopped w' = true /\ w_sends w' = w_sends w ++ [true] /\
    w_received w' = w_received w + length pre + 1 /\
    w_ch w' = Some (match w_ch w with Some v => v | None => true end) /\
    w_timers w' = w_timers w.
Proof.
  revert w. induction pre as [|x pre IH]; intros w Hs Hk Hp Ht; simpl in *.
  - apply andb_prop in Hk as [Hk1 Hk2]. rewrite Hs.
    destruct (body_terminal c e (received w) Hk1 Ht) as (w1 & -> & F1 & F2 & F3 & F4 & F5).
    rewrite (range_stopped _ _ _ F1). exists w1. simpl in *.
    split; [reflexivity|]. repeat split; try assumption. rewrite F3. lia.
  - apply andb_prop in Hk as [Hk1 Hk2]. apply andb_prop in Hp as [Hp1 Hp2].
    apply negb_true_iff in Hp1. rewrite Hs.
    rewrite (body_other c x _ Hk1 Hp1).
    destruct (IH (received w) Hs Hk2 Hp2 Ht) as (w' & -> & H1 & H2 & H3 & H4 & H5).
    exists w'. simpl in *. split; [reflexivity|].
    repeat split; try assumption. rewrite H3. lia.
Qed.

(** Every list either has no terminal event or splits at the first one. *)
Lemma first_terminal_split c (events : list Event) :
  forallb (fun e => negb (terminal c e)) events = true \/
  exists pre e post,
    events = pre ++ e :: post /\
    forallb (fun e => negb (terminal c e)) pre = true /\ terminal c e = true.
Proof.
  induction events as [|x events IH]; simpl; [now left|].
  destruct (terminal c x) eqn:Hx.
  - right. exists [], x, events. auto.
  - destruct IH as [IH|(pre & e & post & -> & Hp & He)]; [now left|].
    right. exists (x :: pre), e, post. simpl. rewrite Hx. auto.
Qed.

(** C7.  On the events of a watch of its kind, each classifier (pod ready,
    volume available, claim bound, deleted) hands true to TrySend exactly
    once, at the first event that meets its terminal condition: the events
    before it are received and ignored, the watcher is stopped there and no
    later event is received.  On a stream without such an event it receives
    everything and sends nothing.  It never sends false. *)
Theorem classifier_sends_true_once :
  forall (c : classifier) (events : list Event) (w : World),
    w_stopped w = false ->
    forallb (well_kinded c) events = true ->
    exists w',
      run_classifier c events w = Some w' /\
      (forall pre e post,
          events = pre ++ e :: post ->
          forallb (fun e => negb (terminal c e)) pre = true ->
          terminal c e = true ->
          w_sends w' = w_sends w ++ [true] /\ w_stopped w' = true /\
          w_received w' = w_received w + length pre + 1 /\
          w_ch w' = Some (match w_ch w with Some v => v | None => true end)) /\
      (forallb (fun e => negb (terminal c e)) events = true ->
          w_sends w' = w_sends w /\ w_stopped w' = false /\
          w_received w' = w_received w + length events /\ w_ch w' = w_ch w) /\
      (exists new, w_sends w' = w_sends w ++ new /\ (new = [] \/ new = [true])).
Proof.
  intros c events w Hs Hk. rewrite run_classifier_body.
  assert (Hex : exists w', range_ResultChan (body_of c) events w = Some w').
  { destruct (first_terminal_split c events) as [Hn|(pre & e & post & -> & Hp & He)].
    - destruct (range_no_terminal c events w Hs Hk Hn) as (w' & H & _). eauto.
    - destruct (range_first_terminal c pre e post w Hs Hk Hp He) as (w' & H & _). eauto. }
  destruct Hex as [w' Hw']. exists w'. split; [exact Hw'|].
  split; [|split].
  - intros pre e post -> Hp He.
    destruct (range_first_terminal c pre e post w Hs Hk Hp He)
      as (w2 & H & H1 & H2 & H3 & H4 & _).
    rewrite Hw' in H. inversion H; subst. auto.
  - intros Hn.
    destruct (range_no_terminal c events w Hs Hk Hn)
      as (w2 & H & H1 & H2 & H3 & H4 & _).
    rewrite Hw' in H. inversion H; subst. auto.
  - destruct (first_terminal_split c events) as [Hn|(pre & e & post & -> & Hp & He)].
    + destruct (range_no_terminal c events w Hs Hk Hn) as (w2 & H & _ & H2 & _).
      rewrite Hw' in H. inversion H; subst. exists []. rewrite app_nil_r. auto.
    + destruct (range_first_terminal c pre e post w Hs Hk Hp He)
        as (w2 & H & _ & H2 & _).
      rewrite Hw' in H. inversion H; subst. exists [true]. auto.
Qed.

(** The pod classifier on [demo_events] sends at the third event and never
    sees the fourth. *)
Lemma classifier_sends_true_once_witness :
  exists w',
    signalPodReady demo_events (newWorld None) = Some w' /\
    w_sends w' = [true] /\ w_stopped w' = true /\ w_received w' = 3 /\
    w_ch w' = Some true.
Proof.
  destruct (classifier_sends_true_once PodReadyC demo_events (newWorld None)
              eq_refl eq_refl) as (w' & Hr & Hfirst & _).
  exists w'. split; [exact Hr|].
  apply (Hfirst [mkEvent Added (PodObj (demo_pod "False"));
                 mkEvent Modified (PodObj (demo_pod "False"))]
                (mkEvent Modified (PodObj (demo_pod "True")))
                [mkEvent Modified (PodObj (demo_pod "True"))]);
    reflexivity.
Defined.

(** ** WatchFor *)

Lemma newWatcher_unsupported {C} (c : K8sClient C) resourceType sel k :
  supported resourceType = false ->
  newWatcher c resourceType sel k = (inr "Unsupported resource type for watcher", k).
Proof.
  unfold supported, newWatcher. simpl. intros H.
  repeat (apply orb_false_elim in H as [-> H]). reflexivity.
Qed.

(** C4, as stated, fails.  WatchFor has no result, so all the immediate
    caller holds afterwards is its channel; an unsupported kind and a refused
    connection leave the same value there, so no reading of the channel
    recovers the setup error. *)
Lemma WatchFor_error_not_reported :
  ~ exists report : option bool -> string,
      forall (c : K8sClient unit) (name : string) (timeout : nat)
             (resourceType : string) signalFunc (w w' : World) (err : string),
        newWatcher c resourceType ("metadata.name=" +:+ name) tt = (inr err, tt) ->
        WatchFor c name timeout resourceType signalFunc w tt = (Some w', tt) ->
        report (w_ch w') = err.
Proof.
  intros [report H].
  pose proof (H refused_client "jupyter" 90 "Deployment" signalPodReady
                (newWorld None) _ _ eq_refl eq_refl) as H1.
  pose proof (H refused_client "jupyter" 90 "Pod" signalPodReady
                (newWorld None) _ _ eq_refl eq_refl) as H2.
  simpl in H1, H2. rewrite H1 in H2. discriminate H2.
Qed.

(** C4, amended.  When the resource type is not supported, or the control
    plane fails to construct the watcher, WatchFor hands false to TrySend at
    once, so that a channel holding no value yet holds false, prints the
    error to standard output and returns: no timer is registered, no event
    is received, the classifier is not run.  Every unsupported resource type
    is such a failure. *)
Theorem WatchFor_setup_failure :
  forall (C : Type) (c : K8sClient C) (name : string) (timeout : nat)
         (resourceType : string) (signalFunc : list Event -> World -> option World)
         (w : World) (k k' : C) (err : string),
    newWatcher c resourceType ("metadata.name=" +:+ name) k = (inr err, k') ->
    exists w',
      WatchFor c name timeout resourceType signalFunc w k = (Some w', k') /\
      w_sends w' = w_sends w ++ [false] /\
      (w_ch w = None -> w_ch w' = Some false) /\
      w_stdout w' = w_stdout w ++ ["Error in WatchFor: " +:+ err] /\
      w_timers w' = w_timers w /\ w_received w' = w_received w /\
      w_stopped w' = w_stopped w.
Proof.
  intros C c name timeout resourceType signalFunc w k k' err H.
  unfold WatchFor. rewrite H. eexists. split; [reflexivity|]. simpl.
  repeat split. intros ->. reflexivity.
Qed.

Lemma WatchFor_setup_failure_witness :
  exists w',
    WatchFor refused_client "jupyter" 90 "Deployment" signalPodReady
             (newWorld None) tt = (Some w', tt) /\
    w_ch w' = Some false /\
    w_stdout w' = ["Error in WatchFor: Unsupported resource type for watcher"].
Proof.
  destruct (WatchFor_setup_failure unit refused_client "jupyter" 90 "Deployment"
              signalPodReady (newWorld None) tt tt
              "Unsupported resource type for watcher"
              (newWatcher_unsupported refused_client "Deployment" _ tt eq_refl))
    as (w' & Hr & _ & Hch & Hout & _).
  exists w'. split; [exact Hr|]. split; [now apply Hch | exact Hout].
Defined.

End K8sProps.

(* ===================================================================== *)
(** * Properties of package managed                                       *)
(* ===================================================================== *)

Module ManagedProps.
Import Apiv1 K8sClient Go Managed ManagedSpec.

(** ** The conversion string(int32) *)

Lemma all_bits_sound k : forall base P,
  all_bits k base P = true ->
  forall r, (base <= r < base + 2 ^ Z.of_nat k)%Z -> P r = true.
Proof.
  induction k as [|k IH]; intros base P H r Hr.
  - simpl in *. assert (r = base) by lia. now subst.
  - cbn [all_bits] in H. apply andb_prop in H as [H1 H2].
    rewrite Nat2Z.inj_succ, Z.pow_succ_r in Hr by lia.
    destruct (Z_lt_le_dec r (base + 2 ^ Z.of_nat k)).
    + apply (IH _ _ H1). lia.
    + apply (IH _ _ H2). lia.
Qed.

Section Bits.
Local Open Scope Z_scope.

(** Setting the marker bits of a UTF-8 byte adds them. *)
Lemma lor_marker x :
  0 <= x < 64 ->
  Z.lor 128 x = 128 + x /\ (x < 32 -> Z.lor 192 x = 192 + x) /\
  (x < 16 -> Z.lor 224 x = 224 + x) /\ (x < 8 -> Z.lor 240 x = 240 + x).
Proof.
  intros Hx.
  assert (H : all_bits 6 0
                (fun x => (Z.lor 128 x =? 128 + x)
                          && implb (x <? 32) (Z.lor 192 x =? 192 + x)
                          && implb (x <? 16) (Z.lor 224 x =? 224 + x)
                          && implb (x <? 8) (Z.lor 240 x =? 240 + x)) = true)
    by (vm_compute; reflexivity).
  apply all_bits_sound with (r := x) in H; [|simpl; lia].
  repeat (apply andb_prop in H as [H ?]).
  apply Z.eqb_eq in H. split; [exact H|].
  repeat split; intros Hlt;
    match goal with
    | E : implb ?c _ = true |- _ =>
        assert (c = true) as Hc by (apply Z.ltb_lt; lia);
        rewrite Hc in E; simpl in E; apply Z.eqb_eq in E; exact E
    end.
Qed.

Lemma shiftr_div r n : 0 <= n -> Z.shiftr r n = r / 2 ^ n.
Proof. intros. now apply Z.shiftr_div_pow2. Qed.

Lemma land_63 r : Z.land r 63 = r mod 64.
Proof. change 63 with (Z.ones 6). rewrite Z.land_ones by lia. reflexivity. Qed.

Ltac dlia := Z.div_mod_to_equations; lia.

Ltac split_cmp :=
  repeat match goal with
  | |- context [?a <=? ?b] => destruct (Z.leb_spec a b); try lia
  | |- context [?a <? ?b] => destruct (Z.ltb_spec a b); try lia
  end.

Lemma lor128 x : 0 <= x < 64 -> Z.lor 128 x = 128 + x.
Proof. intros H. now destruct (lor_marker x H). Qed.
Lemma lor192 x : 0 <= x < 32 -> Z.lor 192 x = 192 + x.
Proof. intros H. destruct (lor_marker x) as (_ & E & _); [lia|]. apply E. lia. Qed.
Lemma lor224 x : 0 <= x < 16 -> Z.lor 224 x = 224 + x.
Proof. intros H. destruct (lor_marker x) as (_ & _ & E & _); [lia|]. apply E. lia. Qed.
Lemma lor240 x : 0 <= x < 8 -> Z.lor 240 x = 240 + x.
Proof. intros H. destruct (lor_marker x) as (_ & _ & _ & E); [lia|]. apply E. lia. Qed.

Lemma encoderune_eq r : encoderune r = encoderune_arith r.
Proof.
  unfold encoderune, encoderune_arith, MaxRune, surrogateMin, surrogateMax.
  rewrite !shiftr_div, !land_63 by lia.
  change (2 ^ 6) with 64. change (2 ^ 12) with 4096. change (2 ^ 18) with 262144.
  split_cmp; cbn [andb orb]; try reflexivity;
    rewrite ?lor128, ?lor192, ?lor224, ?lor240 by dlia; reflexivity.
Qed.

Ltac split_cmp_d :=
  repeat match goal with
  | |- context [?a <=? ?b] => destruct (Z.leb_spec a b); try dlia
  | |- context [?a <? ?b] => destruct (Z.ltb_spec a b); try dlia
  end.

Lemma enc_1 r : 0 <= r <= 127 -> encoderune r = [r].
Proof.
  intros H. rewrite encoderune_eq. unfold encoderune_arith.
  destruct (Z.leb_spec 0 r); [|lia]. destruct (Z.leb_spec r 127); [|lia].
  reflexivity.
Qed.

Lemma enc_2 r : 128 <= r <= 2047 -> encoderune r = [192 + r / 64; 128 + r mod 64].
Proof.
  intros H. rewrite encoderune_eq. unfold encoderune_arith.
  destruct (Z.leb_spec 0 r); [|lia]. destruct (Z.leb_spec r 127); [lia|].
  destruct (Z.leb_spec r 2047); [|lia]. reflexivity.
Qed.

Lemma enc_error r :
  r < 0 \/ 1114111 < r \/ 55296 <= r <= 57343 -> encoderune r = [239; 191; 189].
Proof.
  intros H. rewrite encoderune_eq.
  unfold encoderune_arith, MaxRune, surrogateMin, surrogateMax.
  destruct (Z.leb_spec 0 r); destruct (Z.leb_spec r 127); cbn [andb]; try lia;
    destruct (Z.leb_spec r 2047); cbn [andb]; try lia;
    destruct (Z.ltb_spec r 0); destruct (Z.ltb_spec 1114111 r);
    destruct (Z.leb_spec 55296 r); destruct (Z.leb_spec r 57343);
    cbn [andb orb]; try lia; reflexivity.
Qed.

Lemma enc_3 r :
  2048 <= r <= 65535 -> ~ 55296 <= r <= 57343 ->
  encoderune r = [224 + r / 4096; 128 + (r / 64) mod 64; 128 + r mod 64].
Proof.
  intros H Hs. rewrite encoderune_eq.
  unfold encoderune_arith, MaxRune, surrogateMin, surrogateMax.
  destruct (Z.leb_spec 0 r); destruct (Z.leb_spec r 127); cbn [andb]; try lia;
    destruct (Z.leb_spec r 2047); cbn [andb]; try lia;
    destruct (Z.ltb_spec r 0); destruct (Z.ltb_spec 1114111 r);
    destruct (Z.leb_spec 55296 r); destruct (Z.leb_spec r 57343);
    cbn [andb orb]; try lia;
    destruct (Z.leb_spec r 65535); try lia; reflexivity.
Qed.

Lemma enc_4 r :
  65536 <= r <= 1114111 ->
  encoderune r = [240 + r / 262144; 128 + (r / 4096) mod 64;
                  128 + (r / 64) mod 64; 128 + r mod 64].
Proof.
  intros H. rewrite encoderune_eq.
  unfold encoderune_arith, MaxRune, surrogateMin, surrogateMax.
  destruct (Z.leb_spec 0 r); destruct (Z.leb_spec r 127); cbn [andb]; try lia;
    destruct (Z.leb_spec r 2047); cbn [andb]; try lia;
    destruct (Z.ltb_spec r 0); destruct (Z.ltb_spec 1114111 r);
    destruct (Z.leb_spec 55296 r); destruct (Z.leb_spec r 57343);
    cbn [andb orb]; try lia;
    destruct (Z.leb_spec r 65535); try lia; reflexivity.
Qed.

Lemma rune_cases r :
  0 <= r <= 127 \/ 128 <= r <= 2047 \/
  (r < 0 \/ 1114111 < r \/ 55296 <= r <= 57343) \/
  (2048 <= r <= 65535 /\ ~ 55296 <= r <= 57343) \/ 65536 <= r <= 1114111.
Proof. lia. Qed.

Lemma valid_scalar_true r :
  0 <= r <= 1114111 -> ~ 55296 <= r <= 57343 -> valid_scalar r = true.
Proof. intros H1 H2. unfold valid_scalar. split_cmp; cbn; reflexivity. Qed.

Lemma valid_scalar_false r :
  r < 0 \/ 1114111 < r \/ 55296 <= r <= 57343 -> valid_scalar r = false.
Proof. intros H. unfold valid_scalar. split_cmp; cbn; reflexivity. Qed.

(** Read back, the bytes give the rune when it is a scalar value, and
    U+FFFD otherwise. *)
Lemma decode_encoderune r :
  decode_rune (encoderune r)
  = Some (if valid_scalar r then r else RuneError, []).
Proof.
  destruct (rune_cases r) as [H|[H|[H|[[H Hs]|H]]]].
  - rewrite enc_1, valid_scalar_true by lia.
    unfold decode_rune. split_cmp; cbn; reflexivity.
  - rewrite enc_2, valid_scalar_true by lia.
    unfold decode_rune, continuation. split_cmp_d; cbn; f_equal; f_equal; dlia.
  - rewrite enc_error, valid_scalar_false by lia. reflexivity.
  - rewrite enc_3, valid_scalar_true by lia.
    unfold decode_rune, continuation, valid_scalar.
    split_cmp_d; cbn; f_equal; f_equal; dlia.
  - rewrite enc_4, valid_scalar_true by lia.
    unfold decode_rune, continuation, valid_scalar.
    split_cmp_d; cbn; f_equal; f_equal; dlia.
Qed.

(** The bytes of the conversion are bytes. *)
Lemma encoderune_bytes r : Forall (fun b => 0 <= b < 256) (encoderune r).
Proof.
  destruct (rune_cases r) as [H|[H|[H|[[H Hs]|H]]]].
  - rewrite enc_1 by lia. repeat constructor; lia.
  - rewrite enc_2 by lia. repeat constructor; dlia.
  - rewrite enc_error by lia. repeat constructor; lia.
  - rewrite enc_3 by lia. repeat constructor; dlia.
  - rewrite enc_4 by lia. repeat constructor; dlia.
Qed.

(** The first byte is the rune itself, below 128, or at least 192. *)
Lemma encoderune_head r :
  exists b rest, encoderune r = b :: rest /\
                 ((0 <= r < 128 /\ b = r /\ rest = []) \/ 192 <= b < 256).
Proof.
  destruct (rune_cases r) as [H|[H|[H|[[H Hs]|H]]]].
  - rewrite enc_1 by lia. do 2 eexists. split; [reflexivity|]. left.
    repeat split; lia.
  - rewrite enc_2 by lia. do 2 eexists. split; [reflexivity|]. right. dlia.
  - rewrite enc_error by lia. do 2 eexists. split; [reflexivity|]. right. lia.
  - rewrite enc_3 by lia. do 2 eexists. split; [reflexivity|]. right. dlia.
  - rewrite enc_4 by lia. do 2 eexists. split; [reflexivity|]. right. dlia.
Qed.

End Bits.

Lemma byte_of_Z_back b :
  (0 <= b < 256)%Z -> Z.of_N (N_of_ascii (byte_of_Z b)) = b.
Proof.
  intros H. unfold byte_of_Z. rewrite N_ascii_embedding by lia. lia.
Qed.

Lemma bytes_of_string_of_int32 r :
  bytes_of_string (string_of_int32 r) = encoderune r.
Proof.
  unfold bytes_of_string, string_of_int32.
  rewrite list_ascii_of_string_of_list_ascii, map_map.
  pose proof (encoderune_bytes r) as H.
  induction H as [|b l Hb Hl IH]; simpl; [reflexivity|].
  now rewrite byte_of_Z_back, IH.
Qed.

(** The conversion yields one rune: the integer itself when it is a scalar
    value, U+FFFD otherwise. *)
Lemma one_rune_string_of_int32 r :
  one_rune (string_of_int32 r) (if valid_scalar r then r else RuneError) = true.
Proof.
  unfold one_rune. rewrite bytes_of_string_of_int32, decode_encoderune.
  apply Z.eqb_refl.
Qed.

Lemma all_digits_uint d : all_digits (DecimalString.NilEmpty.string_of_uint d) = true.
Proof. induction d; simpl; auto. Qed.

Lemma all_digits_decimal n : (0 < n)%Z -> all_digits (decimal n) = true.
Proof.
  intros H. destruct n as [|p|p]; try lia.
  unfold decimal. simpl. unfold DecimalString.NilZero.string_of_uint.
  destruct (Pos.to_uint p); try reflexivity;
    apply (all_digits_uint (_ _)).
Qed.

(** The conversion never yields the decimal digits of the integer. *)
Lemma string_of_int32_not_decimal n :
  (0 < n)%Z -> string_of_int32 n <> decimal n.
Proof.
  intros Hn E. pose proof (all_digits_decimal n Hn) as Hd. rewrite <- E in Hd.
  destruct (encoderune_head n) as (b & rest & Hb & Hcase).
  pose proof (encoderune_bytes n) as Hbytes. rewrite Hb in Hbytes.
  inversion Hbytes as [|? ? Hb256 _]; subst.
  unfold string_of_int32 in Hd. rewrite Hb in Hd. simpl in Hd.
  apply andb_prop in Hd as [Hd _]. unfold is_digit in Hd.
  apply andb_prop in Hd as [H1 H2].
  apply N.leb_le in H1, H2.
  assert (Hback := byte_of_Z_back b Hb256).
  destruct Hcase as [(Hlt & -> & ->)|Hbig]; [|lia].
  assert (Hn' : (n = 48 \/ n = 49 \/ n = 50 \/ n = 51 \/ n = 52 \/ n = 53 \/
                 n = 54 \/ n = 55 \/ n = 56 \/ n = 57)%Z) by lia.
  repeat destruct Hn' as [->|Hn']; try subst n; vm_compute in E; discriminate E.
Qed.

(** ** getSshPort *)

Lemma IntOrString_eqb_eq a b : IntOrString_eqb a b = true <-> a = b.
Proof.
  unfold IntOrString_eqb. destruct a, b; simpl.
  rewrite !andb_true_iff, !Z.eqb_eq, String.eqb_eq.
  split; [intros [[-> ->] ->]; reflexivity | intros E; inversion E; auto].
Qed.

Lemma ports_loop_found ppre portEntry ppost sshPort :
  Forall (fun q => sp_TargetPort q <> FromInt 22) ppre ->
  sp_TargetPort portEntry = FromInt 22 ->
  ports_loop (ppre ++ portEntry :: ppost) sshPort = sp_NodePort portEntry.
Proof.
  intros Hpre Hp. induction Hpre as [|q l Hq Hl IH]; simpl.
  - rewrite Hp. simpl. reflexivity.
  - destruct (IntOrString_eqb (sp_TargetPort q) (FromInt 22)) eqn:E; [|exact IH].
    apply IntOrString_eqb_eq in E. contradiction.
Qed.

Lemma services_loop_found podName items n :
  ssh_port_found podName items n -> services_loop podName items 0%Z = n.
Proof.
  intros (pre & service & post & ppre & portEntry & ppost &
          -> & Hpre & Hname & Hports & Hppre & Htarget & <-).
  induction Hpre as [|s l Hs Hl IH]; simpl.
  - rewrite Hname, String.eqb_refl, Hports. now apply ports_loop_found.
  - destruct (String.eqb (svc_Name s) (podName +:+ "-ssh")) eqn:E; [|exact IH].
    apply String.eqb_eq in E. contradiction.
Qed.

(** C10, as stated, fails on node ports in the surrogate range: for the
    pod [jupyter] whose ssh service has node port 55296, getSshPort returns
    a string that is not the one-rune string with code point 55296; it is
    the one-rune string U+FFFD. *)
Lemma getSshPort_surrogate_port :
  fst (getSshPort (jupyter (plane 55296 [] [] None) emptyCache) emptyEnv)
  = (string_of_int32 55296, None) /\
  one_rune (string_of_int32 55296) 55296 = false /\
  one_rune (string_of_int32 55296) 65533 = true.
Proof. vm_compute. auto. Qed.

(** C10, amended.  For every node port [n > 0] found by getSshPort, the
    value returned, and stored under the sshPort key of otherResourceInfo
    when the pod listens on port 22, is the result of the conversion
    string(int32): the one-rune string whose code point is [n] when [n] is a
    Unicode scalar value (at most U+10FFFF and no surrogate half), and the
    one-rune string U+FFFD otherwise; it is never the decimal digits of
    [n]. *)
Theorem getSshPort_returns_rune :
  forall (C : Type) (p : Pod C) (e : Env C) (items : list Service) (k' : C) (n : Z),
    Pod_ListServices p (e_cluster e) = (inl items, k') ->
    ssh_port_found (pod_Name (Object p)) items n ->
    (0 < n)%Z ->
    getSshPort p e = ((string_of_int32 n, None), set_cluster k' e) /\
    one_rune (string_of_int32 n) (if valid_scalar n then n else 65533%Z) = true /\
    string_of_int32 n <> decimal n /\
    (needsSshService p = true ->
     otherResourceInfo (cache (fst (fillOtherResourceInfo p e))) !! "sshPort"
     = Some (string_of_int32 n)).
Proof.
  intros C p e items k' n HL Hfound Hn.
  assert (HG : getSshPort p e = ((string_of_int32 n, None), set_cluster k' e)).
  { unfold getSshPort. rewrite HL, (services_loop_found _ _ _ Hfound).
    destruct (Z.eqb_spec n 0); [lia | reflexivity]. }
  split; [exact HG|]. split; [apply one_rune_string_of_int32|].
  split; [now apply string_of_int32_not_decimal|].
  intros Hssh. unfold fillOtherResourceInfo. rewrite Hssh, HG. simpl.
  apply lookup_insert_eq.
Qed.

(** Node port 30022, inside the default node port range. *)
Lemma getSshPort_returns_rune_witness :
  fst (getSshPort (jupyter (plane 30022 [] [] None) emptyCache) emptyEnv)
  = (string_of_int32 30022, None) /\
  one_rune (string_of_int32 30022) 30022 = true /\
  string_of_int32 30022 <> "30022".
Proof.
  destruct (getSshPort_returns_rune unit
              (jupyter (plane 30022 [] [] None) emptyCache) emptyEnv
              [mkService "jupyter-web" [mkServicePort (FromInt 80) 30080];
               mkService "jupyter-ssh" [mkServicePort (FromInt 80) 30081;
                                         mkServicePort (FromInt 22) 30022]]
              tt 30022%Z eq_refl)
    as (HG & Hone & Hdec & _).
  - exists [mkService "jupyter-web" [mkServicePort (FromInt 80) 30080]],
      (mkService "jupyter-ssh" [mkServicePort (FromInt 80) 30081;
                                 mkServicePort (FromInt 22) 30022]),
      [], [mkServicePort (FromInt 80) 30081],
      (mkServicePort (FromInt 22) 30022), [].
    repeat split; try reflexivity; repeat constructor; simpl; discriminate.
  - lia.
  - rewrite HG. split; [reflexivity | split; [exact Hone | exact Hdec]].
Defined.

(** ** getTmpFile *)

Lemma length_string_of_list_ascii l :
  String.length (string_of_list_ascii l) = length l.
Proof. induction l; simpl; auto. Qed.

(** Reading up to [n] bytes off the buffer gives its first [n] bytes. *)
Lemma read_limit n (stdout : list ascii) :
  (if length stdout <? n then stdout else Buffer_Read stdout (make_bytes n))
  = firstn n stdout.
Proof.
  destruct (Nat.ltb_spec (length stdout) n).
  - symmetry. apply firstn_all2. lia.
  - unfold Buffer_Read, make_bytes. rewrite repeat_length.
    rewrite skipn_all2 by (rewrite repeat_length; lia).
    apply app_nil_r.
Qed.

(** C9.  Whatever getTmpFile returns is at most 4096 bytes long; when the
    exec succeeds it is the first 4096 bytes of the file: exactly 4096 bytes
    of a longer file, and the whole of a file of 4096 bytes or fewer. *)
Theorem getTmpFile_byte_limit :
  forall (C : Type) (p : Pod C) (key : string) (e : Env C),
    tokenByteLimit = 4096 /\
    (forall value err e',
        getTmpFile p key e = Some ((value, err), e') ->
        String.length value <= tokenByteLimit) /\
    (forall stdout stderr k',
        PodExec (Client p) ["cat"; "/tmp/" +:+ key] (Object p) 0 (e_cluster e)
        = Some ((stdout, stderr, None), k') ->
        exists value err,
          getTmpFile p key e = Some ((value, err), set_cluster k' e) /\
          value = string_of_list_ascii (firstn tokenByteLimit stdout) /\
          (tokenByteLimit < length stdout ->
           String.length value = tokenByteLimit /\ err = None) /\
          (0 < length stdout <= tokenByteLimit ->
           value = string_of_list_ascii stdout /\ err = None)).
Proof.
  intros C p key e. split; [reflexivity|]. split.
  - intros value err e' H. unfold getTmpFile in H.
    destruct (PodExec _ _ _ _ _) as [[[[stdout stderr] [msg|]] k']|];
      try discriminate.
    + inversion H; subst. simpl. lia.
    + destruct (length stdout =? 0) eqn:E0.
      * inversion H; subst. simpl. lia.
      * rewrite read_limit in H. inversion H; subst.
        rewrite length_string_of_list_ascii. apply firstn_le_length.
  - intros stdout stderr k' HE. unfold getTmpFile. rewrite HE.
    rewrite read_limit.
    destruct (Nat.eqb_spec (length stdout) 0) as [E0|E0].
    + do 2 eexists. split; [reflexivity|].
      destruct stdout; [|discriminate]. rewrite firstn_nil.
      repeat split; simpl in *; lia.
    + do 2 eexists. split; [reflexivity|]. split; [reflexivity|]. split.
      * intros Hlt. rewrite length_string_of_list_ascii, firstn_length_le by lia.
        auto.
      * intros [_ Hle]. rewrite firstn_all2 by assumption. auto.
Qed.

(** A file of 5000 bytes: 4096 times a, then b. *)
Lemma getTmpFile_byte_limit_witness :
  exists value,
    getTmpFile (jupyter exec_big emptyCache) "token" emptyEnv
    = Some ((value, None), emptyEnv) /\
    String.length value = 4096 /\
    value = string_of_list_ascii (repeat "a"%char 4096).
Proof.
  destruct (getTmpFile_byte_limit unit (jupyter exec_big emptyCache) "token" emptyEnv)
    as (_ & _ & H).
  destruct (H (repeat "a"%char 4096 ++ repeat "b"%char 904) [] tt eq_refl)
    as (value & err & HG & Hv & Hlong & _).
  destruct Hlong as [Hlen ->].
  { rewrite length_app, !repeat_length. unfold tokenByteLimit. lia. }
  exists value. split; [exact HG|]. split; [exact Hlen|].
  rewrite Hv. vm_compute. reflexivity.
Defined.

(** ** fillAllTmpFiles *)

(** A failed extraction returns the empty string together with its error. *)
Lemma getTmpFile_error_value {C} (p : Pod C) key e value msg e' :
  getTmpFile p key e = Some ((value, Some msg), e') -> value = "".
Proof.
  unfold getTmpFile.
  destruct (PodExec _ _ _ _ _) as [[[[stdout stderr] [err|]] k']|];
    try discriminate.
  - intros H. now inversion H.
  - destruct (length stdout =? 0); intros H; now inversion H.
Qed.

(** In the one-try mode a failed extraction stores the empty string under
    the key, over whatever was there. *)
Lemma fill_one_oneTry_failure {C} (p : Pod C) key e value msg e' :
  getTmpFile p key e = Some ((value, Some msg), e') ->
  exists p1 e1,
    fill_one true key p e = Some (p1, e1) /\
    tokens (cache p1) !! key = Some "".
Proof.
  intros H. pose proof (getTmpFile_error_value _ _ _ _ _ _ H) as ->.
  unfold fill_one. rewrite H. do 2 eexists. split; [reflexivity|].
  simpl. apply lookup_insert_eq.
Qed.

Lemma retry_loop_S {C} n key err (p : Pod C) e :
  retry_loop (S n) key err p e =
  match getTmpFile p key e with
  | None => None
  | Some ((value, err'), e1) =>
      match err' with
      | Some _ => retry_loop n key err' (set_token key value p) (e_Sleep 1 e1)
      | None => Some (None, set_token key value p, e1)
      end
  end.
Proof. reflexivity. Qed.

(** Every attempt of the retry loop stores what it got, so after at least
    one attempt the key is present, and it holds the empty string when the
    loop ends in an error. *)
Lemma retry_loop_stores {C} n : forall key err (p : Pod C) e err' p1 e1,
  retry_loop (S n) key err p e = Some (err', p1, e1) ->
  exists value,
    tokens (cache p1) !! key = Some value /\ (err' <> None -> value = "").
Proof.
  induction n as [|n IH]; intros key err p e err' p1 e1 H;
    rewrite retry_loop_S in H;
    destruct (getTmpFile p key e) as [[[value [msg|]] e2]|] eqn:HG;
    try discriminate.
  - simpl in H. inversion H; subst. exists value. split; [apply lookup_insert_eq|].
    intros _. eapply getTmpFile_error_value; eauto.
  - inversion H; subst. exists value. split; [apply lookup_insert_eq|].
    intros E. now contradiction E.
  - eapply IH. exact H.
  - inversion H; subst. exists value. split; [apply lookup_insert_eq|].
    intros E. now contradiction E.
Qed.

(** C5 fails on the code.  With the exec failing outright, or succeeding
    with no output, fillAllTmpFiles leaves the marked key present in tokens,
    mapped to the empty string, in the one-try mode (one attempt logged) and
    in the retry mode (ten attempts, ten seconds slept, the last error
    logged); an unmarked key is not touched. *)
Theorem fillAllTmpFiles_failure_leaves_key :
  key_left_empty exec_fails true /\ key_left_empty exec_fails false /\
  key_left_empty exec_empty true /\ key_left_empty exec_empty false /\
  (exists p1 e1,
      fillAllTmpFiles true
        (jupyter exec_fails (mkPodCache {["token" := "s3cr3t"]} ∅)) emptyEnv
      = Some (p1, e1) /\
      tokens (cache p1) !! "token" = Some "").
Proof.
  repeat split;
    try (do 2 eexists; (split; [vm_compute; reflexivity|]); vm_compute; auto).
Qed.

(** ** Names derived from the user *)

(** C6 fails on the code.  [GetUserString] maps [@] and [.] to the same
    byte, so two distinct identifiers get the same user string and the
    same storage PV/PVC name. *)
Theorem GetStoragePVName_collision :
  UserID alice <> UserID bob /\
  (Name alice, Domain alice) <> (Name bob, Domain bob) /\
  GetUserString alice = "john-doe-example-com" /\
  GetUserString bob = "john-doe-example-com" /\
  GetStoragePVName alice = GetStoragePVName bob /\
  GetStorageListOptions alice = GetStorageListOptions bob.
Proof. vm_compute. repeat split; discriminate. Qed.

(** ** The cache file *)

(** [podCache] has two fields and no exported one. *)
Lemma gob_Encode_podCache wire_encode (c : podCache) :
  gob_Encode wire_encode "managed.podCache" (podCache_fields c)
  = inr "gob: type managed.podCache has no exported fields".
Proof. reflexivity. Qed.

(** The same two mappings under exported names would be transmitted and,
    over a byte format that decodes what it encodes, read back as they
    were. *)
Lemma gob_exported_round_trip wire_encode wire_decode
    (m1 m2 m1' m2' : gmap string string) :
  (forall v, wire_decode (wire_encode v) = Some v) ->
  exists stream,
    gob_Encode wire_encode "managed.podCache"
      [("Tokens", m1); ("OtherResourceInfo", m2)] = inl stream /\
    gob_Decode wire_decode stream
      [("Tokens", m1'); ("OtherResourceInfo", m2')]
    = inl [("Tokens", m1); ("OtherResourceInfo", m2)].
Proof.
  intros Hw. eexists. split; [reflexivity|].
  unfold gob_Decode. simpl. now rewrite Hw.
Qed.

(** C3 fails on the code.  Whatever the byte format of gob streams,
    savePodCache returns the encoder's error and leaves the files as they
    were, so a later loadPodCache reads what was there before the save: on a
    pod without a cache file it fails to open the file and the cache of the
    loading pod stays as it was. *)
Theorem savePodCache_writes_nothing :
  forall (C : Type) (wire_encode : fields -> list ascii)
         (wire_decode : list ascii -> option fields) (p : Pod C) (e : Env C),
    savePodCache wire_encode p e
    = (Some "gob: type managed.podCache has no exported fields", e) /\
    (forall q : Pod C,
        loadPodCache wire_decode q (snd (savePodCache wire_encode p e))
        = loadPodCache wire_decode q e) /\
    fst (savePodCache wire_encode
           (jupyter exec_fails (mkPodCache {["token" := "s3cr3t"]}
                                           {["sshPort" := "30022"]}))
           emptyEnv) <> None /\
    loadPodCache wire_decode (jupyter exec_fails emptyCache)
      (snd (savePodCache wire_encode
              (jupyter exec_fails (mkPodCache {["token" := "s3cr3t"]}
                                              {["sshPort" := "30022"]}))
              emptyEnv))
    = (Some "open /tmp/tokens/jupyter: no such file or directory",
       jupyter exec_fails emptyCache).
Proof.
  intros C wire_encode wire_decode p e.
  assert (H : forall (D : Type) (q : Pod D) (e0 : Env D),
             savePodCache wire_encode q e0
             = (Some "gob: type managed.podCache has no exported fields", e0)).
  { intros D q e0. unfold savePodCache. now rewrite gob_Encode_podCache. }
  split; [apply H|]. split; [intros q; now rewrite H|].
  rewrite !H. split; [discriminate | reflexivity].
Qed.

End ManagedProps.

(* ===================================================================== *)
(** * Further properties of package util                                  *)
(* ===================================================================== *)

Module UtilMore.
Import Util UtilInv UtilProps UtilLabels MoreSpec.

(** X1.  In every state a ReadyChannel can reach, at most one goroutine is
    between the Lock and the deferred Unlock of Receive, and the mutex is
    held exactly by that goroutine. *)
Theorem Receive_mutual_exclusion :
  forall (T : nat) (l : list sched) (s' : Sys) (o : list obs),
    run l (NewReadyChannel T) = Some (s', o) ->
    (forall g1 g2,
        critical (pcs s' g1) = true -> critical (pcs s' g2) = true -> g1 = g2) /\
    (forall g, critical (pcs s' g) = true <-> mutex (rc s') = Some g).
Proof.
  intros T l s' o Hr. destruct (run_from_new _ _ _ _ Hr) as [[Hc Hh _] _].
  split.
  - intros g1 g2 H1 H2. apply Hc in H1, H2. congruence.
  - intros g. split; auto.
Qed.

(** Two callers: the second stays in front of the mutex. *)
Lemma Receive_mutual_exclusion_witness :
  exists s' o,
    run [Call 0; Call 1; Step 0; Step 0] (NewReadyChannel 5) = Some (s', o) /\
    mutex (rc s') = Some 0 /\ step s' (Step 1) = None.
Proof.
  destruct (run [Call 0; Call 1; Step 0; Step 0] (NewReadyChannel 5))
    as [[s' o]|] eqn:E; [|vm_compute in E; discriminate E].
  exists s', o. split; [reflexivity|].
  assert (Hm : mutex (rc s') = Some 0).
  { apply (proj2 (Receive_mutual_exclusion 5 _ s' o E)).
    vm_compute in E. inversion E. reflexivity. }
  split; [exact Hm|].
  assert (Hp : pcs s' 1 = AtLock) by (vm_compute in E; inversion E; reflexivity).
  simpl. rewrite Hp. unfold lock. rewrite Hm. reflexivity.
Defined.

Lemma now_monotone l : forall s s' o,
  run l s = Some (s', o) -> now s <= now s'.
Proof.
  induction l as [|a l IH]; intros s s' o Hr; simpl in Hr.
  - inversion Hr; subst. lia.
  - destruct (step s a) as [[s1 o1]|] eqn:Hs; [|discriminate].
    destruct (run l s1) as [[s2 o2]|] eqn:Hr2; inversion Hr; subst; clear Hr.
    apply IH in Hr2. enough (now s <= now s1) by lia.
    destruct a as [v| | |g|g]; simpl in Hs.
    + inversion Hs; subst; simpl; lia.
    + destruct (timer s) as [d|]; [|discriminate].
      destruct (d <=? now s); inversion Hs; subst; simpl; lia.
    + destruct (timer s) as [d|]; [destruct (d <=? now s)|];
        inversion Hs; subst; simpl; lia.
    + destruct (pcs s g); inversion Hs; subst; simpl; lia.
    + unfold lock, chan_recv in Hs.
      destruct (pcs s g); try destruct (mutex (rc s));
        try destruct (receivedYet (rc s)); try destruct (ch (rc s));
        inversion Hs; subst; simpl; lia.
Qed.

(** The timer goroutine sends only once its deadline is reached. *)
Lemma timer_sends_late l : forall s s' o d,
  run l s = Some (s', o) -> timer s = Some d -> In TimerSend l -> d <= now s'.
Proof.
  induction l as [|a l IH]; intros s s' o d Hr Ht Hin; simpl in Hr; [destruct Hin|].
  destruct (step s a) as [[s1 o1]|] eqn:Hs; [|discriminate].
  destruct (run l s1) as [[s2 o2]|] eqn:Hr2; inversion Hr; subst; clear Hr.
  destruct a as [v| | |g|g]; simpl in Hs.
  - destruct Hin as [E|Hin]; [discriminate|].
    inversion Hs; subst. apply (IH _ _ _ d Hr2); auto.
  - rewrite Ht in Hs. destruct (d <=? now s) eqn:Hd; inversion Hs; subst.
    apply Nat.leb_le in Hd. apply now_monotone in Hr2. simpl in Hr2. lia.
  - destruct Hin as [E|Hin]; [discriminate|]. rewrite Ht in Hs.
    destruct (d <=? now s); inversion Hs; subst. apply (IH _ _ _ d Hr2); auto.
  - destruct Hin as [E|Hin]; [discriminate|].
    destruct (pcs s g); inversion Hs; subst. apply (IH _ _ _ d Hr2); auto.
  - destruct Hin as [E|Hin]; [discriminate|].
    assert (timer s1 = timer s).
    { unfold lock, chan_recv in Hs.
      destruct (pcs s g); try destruct (mutex (rc s));
        try destruct (receivedYet (rc s)); try destruct (ch (rc s));
        inversion Hs; subst; reflexivity. }
    apply (IH _ _ _ d Hr2); congruence.
Qed.

Lemma first_false_is_timer l :
  forallb sends_true_only l = true -> first_send l = Some false ->
  In TimerSend l.
Proof.
  induction l as [|a l IH]; simpl; [discriminate|].
  intros H Hf. apply andb_prop in H as [Ha Hl].
  destruct a; simpl in *; auto.
  inversion Hf; subst. discriminate.
Qed.

(** X2.  When no source other than the timer ever sends false, a Receive
    that has returned false has done so no earlier than the timeout: at the
    end of any run in which some call returned false the clock has reached
    [T] (and every prefix of a run is a run). *)
Theorem ReadyChannel_false_not_before_timeout :
  forall (T : nat) (l : list sched) (s' : Sys) (o : list obs) (g : gid),
    run l (NewReadyChannel T) = Some (s', o) ->
    forallb sends_true_only l = true ->
    In (Ret g false) o ->
    T <= now s'.
Proof.
  intros T l s' o g Hr Hl Hin.
  destruct (run_from_new _ _ _ _ Hr) as [_ Ho].
  apply Ho in Hin. apply (timer_sends_late l _ _ _ T Hr eq_refl).
  now apply first_false_is_timer.
Qed.

Lemma ReadyChannel_false_not_before_timeout_witness :
  exists s' o,
    run [Call 0; Step 0; Step 0; Tick; Tick; Tick; TimerSend;
         Step 0; Step 0; Step 0] (NewReadyChannel 3) = Some (s', o) /\
    In (Ret 0 false) o /\ 3 <= now s'.
Proof.
  destruct (run [Call 0; Step 0; Step 0; Tick; Tick; Tick; TimerSend;
                 Step 0; Step 0; Step 0] (NewReadyChannel 3))
    as [[s' o]|] eqn:E; [|vm_compute in E; discriminate E].
  assert (Hin : In (Ret 0 false) o)
    by (vm_compute in E; inversion E; simpl; auto).
  exists s', o. split; [reflexivity|]. split; [exact Hin|].
  exact (ReadyChannel_false_not_before_timeout 3 _ s' o 0 E eq_refl Hin).
Defined.

(** ** More on the combinator *)

Lemma Receive_keeps_resolved g t v t' :
  Receive g t = Some (v, t') ->
  resolved t = Some v /\ resolved t' = Some v /\ mutex t = None /\
  mutex t' = None /\ receivedYet t' = true /\ firstValue t' = v.
Proof.
  unfold Receive, lock, chan_recv, resolved.
  destruct (mutex t) eqn:Hm; [discriminate|]. simpl.
  destruct (receivedYet t) eqn:Hr.
  - intros H; inversion H; subst. simpl. rewrite Hr. auto 10.
  - destruct (ch t) eqn:Hc; [|discriminate].
    intros H; inversion H; subst. simpl. auto 10.
Qed.

Lemma loop_blocks g : forall (inputChannels : list addr) output (σ : store),
  (exists a, In a inputChannels /\ resolved (σ a) = None) ->
  ReceiveReadyChannels_loop g inputChannels output σ = None.
Proof.
  induction inputChannels as [|a0 rest IH]; intros output σ (a & Hin & Hu).
  - destruct Hin.
  - simpl. destruct (Receive g (σ a0)) as [[v t']|] eqn:HR; [|reflexivity].
    destruct (Receive_keeps_resolved _ _ _ _ HR) as (H1 & H2 & _).
    apply IH. exists a. split.
    + destruct Hin as [->|Hin]; [congruence | exact Hin].
    + unfold store_set. destruct (Nat.eqb_spec a a0); [subst; congruence | exact Hu].
Qed.

(** X3.  The combinator does not return early: while some input channel is
    unresolved, ReceiveReadyChannels and CombineReadyChannels stay blocked,
    whatever the other channels hold, also when one of them has already
    resolved false. *)
Theorem ReceiveReadyChannels_blocks_until_all_resolved :
  forall (g : gid) (inputChannels : list addr) (σ : store) (a : addr),
    In a inputChannels -> resolved (σ a) = None ->
    ReceiveReadyChannels g inputChannels σ = None /\
    (forall outputChannel,
        CombineReadyChannels g inputChannels outputChannel σ = None).
Proof.
  intros g inputChannels σ a Hin Hu.
  assert (H : ReceiveReadyChannels g inputChannels σ = None)
    by (apply loop_blocks; eauto).
  split; [exact H|]. intros outputChannel.
  unfold CombineReadyChannels. now rewrite H.
Qed.

(** Channel 0 timed out (false), channel 1 is still unresolved. *)
Lemma ReceiveReadyChannels_blocks_until_all_resolved_witness :
  ReceiveReadyChannels 7 [0; 1]
    (fun a => if Nat.eqb a 0 then mkRC (Some false) false false None
              else emptyReadyChannel)
  = None.
Proof.
  apply (ReceiveReadyChannels_blocks_until_all_resolved 7 [0; 1] _ 1).
  - simpl. auto.
  - reflexivity.
Defined.

Lemma loop_receives g : forall (inputChannels : list addr) output (σ σ' : store) out,
  ReceiveReadyChannels_loop g inputChannels output σ = Some (out, σ') ->
  (forall a, In a inputChannels ->
             mutex (σ' a) = None /\ receivedYet (σ' a) = true) /\
  (forall a, mutex (σ a) = None -> receivedYet (σ a) = true ->
             mutex (σ' a) = None /\ receivedYet (σ' a) = true) /\
  (forall a, resolved (σ' a) = resolved (σ a)).
Proof.
  induction inputChannels as [|a0 rest IH]; intros output σ σ' out H; simpl in H.
  - inversion H; subst. split; [intros a []|]. auto.
  - destruct (Receive g (σ a0)) as [[v t']|] eqn:HR; [|discriminate].
    destruct (Receive_keeps_resolved _ _ _ _ HR) as (H1 & H2 & H3 & H4 & H5 & H6).
    destruct (IH _ _ _ _ H) as (Ha & Hb & Hc).
    assert (Hset : forall a, store_set σ a0 t' a = (if Nat.eqb a a0 then t' else σ a))
      by reflexivity.
    split; [|split].
    + intros a [->|Hin]; [|now apply Ha].
      apply Hb; rewrite Hset, Nat.eqb_refl; assumption.
    + intros a Hm Hr. apply Hb; rewrite Hset;
        destruct (Nat.eqb_spec a a0); subst; assumption.
    + intros a. rewrite Hc, Hset. destruct (Nat.eqb_spec a a0); subst; congruence.
Qed.

Lemma Receive_received g t :
  mutex t = None -> receivedYet t = true ->
  Receive g t = Some (firstValue t, t).
Proof.
  intros Hm Hr. unfold Receive, lock. rewrite Hm. simpl. rewrite Hr.
  destruct t; simpl in *; subst. reflexivity.
Qed.

Lemma forallb_pointwise {A} (f h : A -> bool) (l : list A) :
  (forall a, f a = h a) -> forallb f l = forallb h l.
Proof. intros E. induction l; simpl; [reflexivity | now rewrite E, IHl]. Qed.

Lemma loop_again g : forall (inputChannels : list addr) output (σ : store),
  (forall a, In a inputChannels -> mutex (σ a) = None /\ receivedYet (σ a) = true) ->
  exists σ2,
    ReceiveReadyChannels_loop g inputChannels output σ
    = Some (output && forallb (fun a => firstValue (σ a)) inputChannels, σ2) /\
    (forall a, σ2 a = σ a).
Proof.
  induction inputChannels as [|a0 rest IH]; intros output σ H; simpl.
  - exists σ. rewrite andb_true_r. auto.
  - destruct (H a0 (or_introl eq_refl)) as [Hm Hr].
    rewrite (Receive_received g _ Hm Hr).
    assert (Hsame : forall a, store_set σ a0 (σ a0) a = σ a).
    { intros a. unfold store_set. destruct (Nat.eqb_spec a a0); congruence. }
    destruct (IH (if negb (firstValue (σ a0)) then false else output)
                 (store_set σ a0 (σ a0))) as (σ2 & HR & Heq).
    { intros a Hin. rewrite Hsame. apply H. now right. }
    exists σ2. split.
    + rewrite HR. f_equal. f_equal.
      rewrite (forallb_pointwise _ (fun a => firstValue (σ a)))
        by (intros a; now rewrite Hsame).
      destruct (firstValue (σ a0)), output; reflexivity.
    + intros a. now rewrite Heq, Hsame.
Qed.

Lemma loop_output g : forall (inputChannels : list addr) output (σ σ' : store) out,
  ReceiveReadyChannels_loop g inputChannels output σ = Some (out, σ') ->
  out = output && forallb (fun a => firstValue (σ' a)) inputChannels.
Proof.
  induction inputChannels as [|a0 rest IH]; intros output σ σ' out H.
  - simpl in H. inversion H; subst. now rewrite andb_true_r.
  - pose proof (loop_receives g _ _ _ _ _ H) as (Ha & _ & Hc).
    simpl in H. destruct (Receive g (σ a0)) as [[v t']|] eqn:HR; [|discriminate].
    destruct (Receive_keeps_resolved _ _ _ _ HR) as (H1 & _).
    rewrite (IH _ _ _ _ H). simpl.
    assert (Hv : firstValue (σ' a0) = v).
    { destruct (Ha a0 (or_introl eq_refl)) as [_ Hr].
      specialize (Hc a0). unfold resolved in Hc at 1. rewrite Hr, H1 in Hc.
      congruence. }
    rewrite Hv. destruct v, output; reflexivity.
Qed.

(** X4.  Asking again gives the same answer: after ReceiveReadyChannels has
    returned, every input channel is marked as received, and a further call
    on the same channels, by any goroutine, returns the same value at once
    and changes no channel. *)
Theorem ReceiveReadyChannels_again :
  forall (g g' : gid) (inputChannels : list addr) (σ σ' : store) (output : bool),
    ReceiveReadyChannels g inputChannels σ = Some (output, σ') ->
    (forall a, In a inputChannels ->
               mutex (σ' a) = None /\ receivedYet (σ' a) = true /\
               (output = true -> firstValue (σ' a) = true)) /\
    exists σ2,
      ReceiveReadyChannels g' inputChannels σ' = Some (output, σ2) /\
      (forall a, σ2 a = σ' a).
Proof.
  intros g g' inputChannels σ σ' output H. unfold ReceiveReadyChannels in *.
  pose proof (loop_receives g _ _ _ _ _ H) as (Ha & _ & _).
  pose proof (loop_output g _ _ _ _ _ H) as Hout. simpl in Hout.
  split.
  - intros a Hin. destruct (Ha a Hin) as [Hm Hr].
    split; [exact Hm|]. split; [exact Hr|]. intros ->.
    symmetry in Hout. rewrite forallb_forall in Hout. auto.
  - destruct (loop_again g' inputChannels true σ' Ha) as (σ2 & HR & Heq).
    exists σ2. simpl in HR. rewrite HR, <- Hout. auto.
Qed.

Lemma ReceiveReadyChannels_again_witness :
  exists σ' σ2,
    ReceiveReadyChannels 1 [0; 1]
      (fun a => if Nat.eqb a 0 then mkRC (Some true) false false None
                else mkRC (Some false) false false None)
    = Some (false, σ') /\
    ReceiveReadyChannels 2 [0; 1] σ' = Some (false, σ2).
Proof.
  destruct (ReceiveReadyChannels 1 [0; 1]
              (fun a => if Nat.eqb a 0 then mkRC (Some true) false false None
                        else mkRC (Some false) false false None))
    as [[out σ']|] eqn:E; [|vm_compute in E; discriminate E].
  assert (out = false) as -> by (vm_compute in E; now inversion E).
  destruct (ReceiveReadyChannels_again 1 2 _ _ σ' false E) as (_ & σ2 & H2 & _).
  exists σ', σ2. split; [reflexivity | exact H2].
Defined.

Lemma forallb_Permutation {A} (f : A -> bool) (l l' : list A) :
  Permutation l l' -> forallb f l = forallb f l'.
Proof.
  induction 1; simpl; try congruence.
  destruct (f x), (f y); reflexivity.
Qed.

(** X5.  The order of the input channels does not matter: on resolved
    channels, ReceiveReadyChannels returns the same value for every
    rearrangement of the list. *)
Theorem ReceiveReadyChannels_any_order :
  forall (g : gid) (inputChannels inputChannels' : list addr) (σ : store)
         (vals : addr -> bool),
    Permutation inputChannels inputChannels' ->
    (forall a, In a inputChannels ->
               mutex (σ a) = None /\ resolved (σ a) = Some (vals a)) ->
    exists output σ1 σ2,
      ReceiveReadyChannels g inputChannels σ = Some (output, σ1) /\
      ReceiveReadyChannels g inputChannels' σ = Some (output, σ2).
Proof.
  intros g l l' σ vals HP H.
  destruct (ReceiveReadyChannels_loop_and g vals l true σ H) as (σ1 & H1 & _).
  destruct (ReceiveReadyChannels_loop_and g vals l' true σ) as (σ2 & H2 & _).
  { intros a Hin. apply H. eapply Permutation_in; [symmetry|]; eassumption. }
  exists (forallb vals l), σ1, σ2. split; [exact H1|].
  unfold ReceiveReadyChannels. rewrite H2. simpl.
  now rewrite (forallb_Permutation vals l l' HP).
Qed.

Lemma ReceiveReadyChannels_any_order_witness :
  exists output σ1 σ2,
    ReceiveReadyChannels 1 [0; 1; 2]
      (fun a => mkRC (Some (Nat.eqb a 1)) false false None)
    = Some (output, σ1) /\
    ReceiveReadyChannels 1 [2; 0; 1]
      (fun a => mkRC (Some (Nat.eqb a 1)) false false None)
    = Some (output, σ2).
Proof.
  apply (ReceiveReadyChannels_any_order 1 [0; 1; 2] [2; 0; 1] _
           (fun a => Nat.eqb a 1)).
  - change [2; 0; 1] with ([2] ++ [0; 1]). change [0; 1; 2] with ([0; 1] ++ [2]).
    apply Permutation_app_comm.
  - intros a _. split; reflexivity.
Defined.

End UtilMore.

(* ===================================================================== *)
(** * Further properties of package k8sclient                             *)
(* ===================================================================== *)

Module K8sMore.
Import Apiv1 K8sClient K8sSpec K8sProps.





Lemma body_foreign c e w :
  well_kinded c e = false -> body_of c e w = None.
Proof.
  unfold well_kinded.
  destruct c, e as [ty ob]; simpl; destruct ty; try discriminate;
    destruct ob; try discriminate; reflexivity.
Qed.

(** X7.  The ready classifiers assert the kind of the object of every
    Modified event: on a Modified event that carries an object of another
    kind (an error status, say) before any terminal event, the classifier
    panics instead of returning. *)
Theorem classifier_panics_on_foreign_object :
  forall (cls : classifier) (pre post : list Event) (e : Event) (w : World),
    w_stopped w = false ->
    forallb (well_kinded cls) pre = true ->
    forallb (fun e => negb (terminal cls e)) pre = true ->
    well_kinded cls e = false ->
    run_classifier cls (pre ++ e :: post) w = None.
Proof.
  intros cls pre post e w Hs Hk Hn He. rewrite run_classifier_body.
  revert w Hs. induction pre as [|x pre IH]; intros w Hs; simpl in *.
  - rewrite Hs. now rewrite (body_foreign cls e _ He).
  - apply andb_prop in Hk as [Hk1 Hk2]. apply andb_prop in Hn as [Hn1 Hn2].
    apply negb_true_iff in Hn1. rewrite Hs.
    rewrite (body_other cls x _ Hk1 Hn1). apply IH; auto.
Qed.

Lemma classifier_panics_on_foreign_object_witness :
  signalPVCReady
    [mkEvent Added (PVCObj (mkPVC "data" "Pending"));
     mkEvent Modified (StatusObj "too old resource version");
     mkEvent Modified (PVCObj (mkPVC "data" "Bound"))]
    (newWorld None)
  = None.
Proof.
  apply (classifier_panics_on_foreign_object PVCReadyC
           [mkEvent Added (PVCObj (mkPVC "data" "Pending"))]
           [mkEvent Modified (PVCObj (mkPVC "data" "Bound"))]
           (mkEvent Modified (StatusObj "too old resource version"))
           (newWorld None)); reflexivity.
Defined.

End K8sMore.

(* ===================================================================== *)
(** * Further properties of package managed                               *)
(* ===================================================================== *)

Module ManagedMore.
Import Apiv1 K8sClient Go Managed ManagedSpec ManagedProps.
Import UtilLabels Apiv1Storage ManagedStorage MoreSpec.

(** ** Strings *)

Lemma append_cons c (a b : string) : String c a +:+ b = String c (a +:+ b).
Proof. reflexivity. Qed.

Lemma append_nil_l (b : string) : "" +:+ b = b.
Proof. reflexivity. Qed.

Lemma append_inj_l (a b c : string) : a +:+ b = a +:+ c -> b = c.
Proof.
  induction a; rewrite ?append_nil_l, ?append_cons; intros H;
    [exact H | inversion H; auto].
Qed.

Lemma append_nil_r (a : string) : a +:+ "" = a.
Proof. induction a; rewrite ?append_nil_l, ?append_cons; congruence. Qed.

Lemma length_append (a b : string) :
  String.length (a +:+ b) = String.length a + String.length b.
Proof.
  induction a; rewrite ?append_nil_l, ?append_cons; simpl; auto.
Qed.

Lemma eqb_neq_empty (s : string) : String.eqb s "" = false <-> s <> "".
Proof. apply String.eqb_neq. Qed.

Lemma Cut1_spec s sep :
  match Cut1 s sep with
  | (before, after, found) =>
      has_byte sep before = false /\
      found = has_byte sep s /\
      (found = true -> s = before +:+ String sep after) /\
      (found = false -> before = s /\ after = "")
  end.
Proof.
  induction s as [|c s IH]; simpl.
  - split; [reflexivity|]. split; [reflexivity|]. split; [discriminate | auto].
  - destruct (Ascii.eqb_spec c sep) as [->|Hne].
    + simpl. split; [reflexivity|]. split; [reflexivity|].
      split; [reflexivity | discriminate].
    + destruct (Cut1 s sep) as [[before after] found].
      destruct IH as (H1 & H2 & H3 & H4). simpl.
      apply Ascii.eqb_neq in Hne. rewrite Hne. simpl.
      split; [exact H1|]. split; [exact H2|]. split.
      * intros Hf. rewrite append_cons. now rewrite <- (H3 Hf).
      * intros Hf. destruct (H4 Hf) as [-> ->]. auto.
Qed.

(** ** NewUser *)

(** X8.  NewUser splits the identifier at its first [@]: the name holds no
    [@]; an identifier with an [@] is name, [@], domain; one without is the
    name, with an empty domain.  The user without identifier gets no silo
    address either: the address passed is dropped. *)
Theorem NewUser_splits_at_first_at :
  forall (C : Type) (userID siloIP : string) (client : K8sClient C),
    UserID (NewUser userID siloIP client) = userID /\
    has_byte "@" (Name (NewUser userID siloIP client)) = false /\
    (has_byte "@" userID = true ->
     userID = Name (NewUser userID siloIP client) +:+ "@"
              +:+ Domain (NewUser userID siloIP client)) /\
    (has_byte "@" userID = false ->
     Name (NewUser userID siloIP client) = userID /\
     Domain (NewUser userID siloIP client) = "") /\
    SiloIP (NewUser userID siloIP client)
    = (if String.eqb userID "" then "" else siloIP).
Proof.
  intros C userID siloIP client. unfold NewUser.
  destruct (String.eqb_spec userID "") as [->|Hne].
  - simpl. split; [reflexivity|]. split; [reflexivity|].
    split; [discriminate|]. split; [auto | reflexivity].
  - pose proof (Cut1_spec userID "@") as H.
    destruct (Cut1 userID "@") as [[before after] found].
    destruct H as (H1 & H2 & H3 & H4). simpl.
    split; [reflexivity|]. split; [exact H1|]. split; [|split].
    + intros Hf. apply H3. congruence.
    + intros Hf. apply H4. congruence.
    + reflexivity.
Qed.

(** ** GetUserString and the names derived from it *)

Lemma Replace1_length s old new :
  String.length (Replace1 s old new) = String.length s.
Proof. induction s; simpl; auto. Qed.

Lemma Replace1_removes s old new :
  old <> new -> has_byte old (Replace1 s old new) = false.
Proof.
  intros Hne. induction s as [|c s IH]; simpl; [reflexivity|].
  rewrite IH, orb_false_r.
  destruct (Ascii.eqb_spec c old); apply Ascii.eqb_neq; congruence.
Qed.

Lemma Replace1_keeps_absent s old new c :
  c <> new -> has_byte c s = false -> has_byte c (Replace1 s old new) = false.
Proof.
  intros Hne. induction s as [|x s IH]; simpl; [reflexivity|].
  intros H. apply orb_false_elim in H as [Hx Hs]. rewrite (IH Hs), orb_false_r.
  destruct (Ascii.eqb_spec x old); [|exact Hx].
  apply Ascii.eqb_neq. congruence.
Qed.

Lemma Replace1_absent s old new :
  has_byte old s = false -> Replace1 s old new = s.
Proof.
  induction s as [|x s IH]; simpl; [reflexivity|].
  intros H. apply orb_false_elim in H as [Hx Hs]. now rewrite Hx, IH.
Qed.

(** X9.  The user string is as long as the identifier and holds neither
    [@] nor [.]; an identifier that holds neither is its own user string. *)
Theorem GetUserString_shape :
  forall (C : Type) (u : User C),
    String.length (GetUserString u) = String.length (UserID u) /\
    has_byte "@" (GetUserString u) = false /\
    has_byte "." (GetUserString u) = false /\
    (has_byte "@" (UserID u) = false -> has_byte "." (UserID u) = false ->
     GetUserString u = UserID u).
Proof.
  intros C u. unfold GetUserString. repeat split.
  - now rewrite !Replace1_length.
  - apply Replace1_keeps_absent; [discriminate|].
    apply Replace1_removes. discriminate.
  - apply Replace1_removes. discriminate.
  - intros H1 H2. now rewrite (Replace1_absent _ "@" "-" H1), Replace1_absent.
Qed.

Lemma user_byte_joiner x : joiner x = true -> user_byte x = "-"%char.
Proof.
  unfold joiner, user_byte.
  destruct (Ascii.eqb_spec x "@") as [->|H1]; [reflexivity|].
  destruct (Ascii.eqb_spec x ".") as [->|H2]; [reflexivity|].
  destruct (Ascii.eqb_spec x "-") as [->|H3]; [reflexivity | discriminate].
Qed.

Lemma user_byte_other x : joiner x = false -> user_byte x = x.
Proof.
  unfold joiner, user_byte. intros H.
  apply orb_false_elim in H as [H H3]. apply orb_false_elim in H as [H1 H2].
  now rewrite H1, H2.
Qed.

Lemma joined_byte (x y : ascii) :
  user_byte x = user_byte y <-> Ascii.eqb x y || (joiner x && joiner y) = true.
Proof.
  destruct (joiner x) eqn:Jx, (joiner y) eqn:Jy;
    rewrite ?(user_byte_joiner _ Jx), ?(user_byte_joiner _ Jy),
      ?(user_byte_other _ Jx), ?(user_byte_other _ Jy);
    simpl; rewrite ?orb_true_r, ?orb_false_r.
  - tauto.
  - split; [intros <-; discriminate Jy|].
    intros E. apply Ascii.eqb_eq in E. congruence.
  - split; [intros ->; discriminate Jx|].
    intros E. apply Ascii.eqb_eq in E. congruence.
  - rewrite Ascii.eqb_eq. tauto.
Qed.

Lemma Replace1_user_byte (a : string) :
  Replace1 (Replace1 a "@" "-") "." "-"
  = string_of_list_ascii (map user_byte (list_ascii_of_string a)).
Proof. induction a as [|x a IH]; simpl; [reflexivity | now rewrite IH]. Qed.

Lemma GetUserString_similar (a b : string) :
  Replace1 (Replace1 a "@" "-") "." "-" = Replace1 (Replace1 b "@" "-") "." "-"
  <-> similar a b = true.
Proof.
  rewrite !Replace1_user_byte.
  revert b. induction a as [|x a IH]; intros [|y b]; simpl;
    try (split; intros H; (reflexivity || discriminate)).
  rewrite andb_true_iff, <- IH, <- joined_byte.
  split; [intros H; inversion H; auto | intros [-> ->]; reflexivity].
Qed.

(** X10.  Two users get the same storage PV/PVC name exactly when their
    identifiers have the same length and agree byte by byte up to the
    choice among [@], [.] and [-]. *)
Theorem GetStoragePVName_equal_iff :
  forall (C : Type) (u1 u2 : User C),
    GetStoragePVName u1 = GetStoragePVName u2
    <-> similar (UserID u1) (UserID u2) = true.
Proof.
  intros C u1 u2. unfold GetStoragePVName, GetUserString.
  rewrite <- GetUserString_similar.
  split; [apply append_inj_l | intros ->; reflexivity].
Qed.

(** ** The storage pair and its labels *)

Lemma PV_labels {C} (u : User C) :
  om_Labels (pvt_ObjectMeta (GetTargetStoragePV u)) !! "user" = Some (Name u) /\
  om_Labels (pvt_ObjectMeta (GetTargetStoragePV u)) !! "domain" = Some (Domain u) /\
  om_Labels (pvt_ObjectMeta (GetTargetStoragePV u)) !! "name"
  = Some (GetStoragePVName u) /\
  om_Labels (pvt_ObjectMeta (GetTargetStoragePV u)) !! "server" = Some (SiloIP u).
Proof.
  unfold GetTargetStoragePV. simpl.
  repeat split;
    repeat first [ rewrite lookup_insert_eq; reflexivity
                 | rewrite lookup_insert_ne by discriminate ].
Qed.

Lemma PVC_labels {C} (u : User C) :
  om_Labels (pvct_ObjectMeta (GetTargetStoragePVC u)) !! "user" = Some (UserID u) /\
  om_Labels (pvct_ObjectMeta (GetTargetStoragePVC u)) !! "domain" = Some (Domain u) /\
  om_Labels (pvct_ObjectMeta (GetTargetStoragePVC u)) !! "name"
  = Some (GetStoragePVName u) /\
  om_Labels (pvct_ObjectMeta (GetTargetStoragePVC u)) !! "server" = Some (SiloIP u).
Proof.
  unfold GetTargetStoragePVC. simpl.
  repeat split;
    repeat first [ rewrite lookup_insert_eq; reflexivity
                 | rewrite lookup_insert_ne by discriminate ].
Qed.

Lemma append_longer (a b : string) : b <> "" -> a +:+ b <> a.
Proof.
  intros Hb E. apply (f_equal String.length) in E.
  rewrite length_append in E. destruct b; [congruence | simpl in E; lia].
Qed.

(** X11.  Reading the user back from the labels of the storage PV.  For a
    user made by NewUser, GetUserIDFromLabels on the labels that
    GetTargetStoragePV attaches gives the identifier back exactly when the
    identifier is empty, or has a non-empty name and, if it holds an [@], a
    non-empty domain.  (An identifier [name@] comes back as [name], and one
    that starts with [@] comes back empty.) *)
Theorem PV_labels_give_user_back :
  forall (C : Type) (userID siloIP : string) (client : K8sClient C),
    GetUserIDFromLabels
      (om_Labels (pvt_ObjectMeta
                    (GetTargetStoragePV (NewUser userID siloIP client))))
    = userID
    <-> (userID = "" \/
         (Name (NewUser userID siloIP client) <> "" /\
          (has_byte "@" userID = true ->
           Domain (NewUser userID siloIP client) <> ""))).
Proof.
  intros C userID siloIP client.
  destruct (PV_labels (NewUser userID siloIP client)) as (Hu & Hd & _).
  unfold GetUserIDFromLabels. rewrite Hu, Hd.
  unfold NewUser.
  destruct (String.eqb_spec userID "") as [->|Hne]; [simpl; tauto|].
  pose proof (Cut1_spec userID "@") as H.
  destruct (Cut1 userID "@") as [[name domain] found].
  destruct H as (H1 & H2 & H3 & H4). simpl.
  destruct (String.eqb_spec name "") as [->|Hn].
  - split; [congruence | intros [?|[? _]]; congruence].
  - destruct (String.eqb_spec domain "") as [->|Hdm]; simpl.
    + destruct found.
      * split.
        -- intros E. rewrite (H3 eq_refl) in E.
           exfalso. symmetry in E. revert E. apply append_longer. discriminate.
        -- intros [?|[_ Hd']]; [congruence|]. exfalso. apply Hd'; congruence.
      * destruct (H4 eq_refl) as [-> _]. split; [|reflexivity].
        intros _. right. split; [assumption|]. congruence.
    + destruct found.
      * rewrite (H3 eq_refl). split; [|reflexivity]. intros _. right. tauto.
      * destruct (H4 eq_refl) as [_ E]. congruence.
Qed.

(** X12.  The storage pair of a user made by NewUser.  PV and PVC have the
    same name, which is also their [name] label and the value that
    GetStorageListOptions selects on; the PV's claim reference names the PVC
    in the client's namespace and the PVC's volume name is the PV; both
    carry the same [domain] and [server] labels, the latter being the NFS
    server of the PV.  Their [user] labels agree only for an identifier
    without [@]: the PV is labelled with the name, the PVC with the whole
    identifier. *)
Theorem storage_pair_matches :
  forall (C : Type) (userID siloIP : string) (client : K8sClient C),
    om_Name (pvt_ObjectMeta (GetTargetStoragePV (NewUser userID siloIP client)))
    = om_Name (pvct_ObjectMeta (GetTargetStoragePVC (NewUser userID siloIP client))) /\
    GetStorageListOptions (NewUser userID siloIP client)
    = "name=" +:+ om_Name (pvt_ObjectMeta
                             (GetTargetStoragePV (NewUser userID siloIP client))) /\
    om_Labels (pvt_ObjectMeta (GetTargetStoragePV (NewUser userID siloIP client)))
      !! "name"
    = Some (om_Name (pvct_ObjectMeta
                       (GetTargetStoragePVC (NewUser userID siloIP client)))) /\
    om_Labels (pvct_ObjectMeta (GetTargetStoragePVC (NewUser userID siloIP client)))
      !! "name"
    = Some (om_Name (pvt_ObjectMeta
                       (GetTargetStoragePV (NewUser userID siloIP client)))) /\
    pvs_ClaimRef (pvt_Spec (GetTargetStoragePV (NewUser userID siloIP client)))
    = mkObjectReference
        (om_Namespace (pvct_ObjectMeta
                         (GetTargetStoragePVC (NewUser userID siloIP client))))
        (om_Name (pvct_ObjectMeta
                    (GetTargetStoragePVC (NewUser userID siloIP client))))
        "PersistentVolumeClaim" /\
    om_Namespace (pvct_ObjectMeta (GetTargetStoragePVC (NewUser userID siloIP client)))
    = Namespace client /\
    pvcs_VolumeName (pvct_Spec (GetTargetStoragePVC (NewUser userID siloIP client)))
    = om_Name (pvt_ObjectMeta (GetTargetStoragePV (NewUser userID siloIP client))) /\
    om_Labels (pvt_ObjectMeta (GetTargetStoragePV (NewUser userID siloIP client)))
      !! "server"
    = Some (nfs_Server
              (pvs_NFS (pvt_Spec (GetTargetStoragePV (NewUser userID siloIP client))))) /\
    (om_Labels (pvt_ObjectMeta (GetTargetStoragePV (NewUser userID siloIP client)))
       !! "user"
     = om_Labels (pvct_ObjectMeta (GetTargetStoragePVC (NewUser userID siloIP client)))
         !! "user"
     <-> has_byte "@" userID = false).
Proof.
  intros C userID siloIP client.
  destruct (PV_labels (NewUser userID siloIP client)) as (Hu & Hd & Hn & Hs).
  destruct (PVC_labels (NewUser userID siloIP client)) as (Hu' & Hd' & Hn' & Hs').
  rewrite Hu, Hn, Hs, Hu', Hn'.
  split; [reflexivity|]. split; [reflexivity|]. split; [reflexivity|].
  split; [reflexivity|]. split; [reflexivity|].
  split; [unfold NewUser; destruct (String.eqb userID "");
          [reflexivity | destruct (Cut1 userID "@") as [[? ?] ?]; reflexivity]|].
  split; [reflexivity|]. split; [reflexivity|].
  unfold NewUser.
  destruct (String.eqb_spec userID "") as [->|Hne]; [simpl; tauto|].
  pose proof (Cut1_spec userID "@") as H.
  destruct (Cut1 userID "@") as [[name domain] found].
  destruct H as (H1 & H2 & H3 & H4). simpl. rewrite <- H2.
  destruct found.
  - split; [|discriminate]. intros E. inversion E as [E'].
    rewrite <- E' in H3. specialize (H3 eq_refl).
    exfalso. symmetry in H3. revert H3. apply append_longer. discriminate.
  - destruct (H4 eq_refl) as [-> _]. tauto.
Qed.

(** X13.  One cache file per pod name: two pods of clients with the same
    token directory have the same cache file only if they have the same
    name. *)
Theorem getCacheFile_by_pod_name :
  forall (C : Type) (p1 p2 : Pod C),
    TokenDir (Client p1) = TokenDir (Client p2) ->
    getCacheFile p1 = getCacheFile p2 ->
    pod_Name (Object p1) = pod_Name (Object p2).
Proof.
  intros C p1 p2 Hd H. unfold getCacheFile in H. rewrite Hd in H.
  apply append_inj_l in H. now apply append_inj_l in H.
Qed.

Lemma getCacheFile_by_pod_name_witness :
  getCacheFile (jupyter exec_fails emptyCache) = "/tmp/tokens/jupyter" /\
  pod_Name (Object (jupyter exec_fails emptyCache))
  = pod_Name (Object (jupyter exec_empty (mkPodCache {["token" := "x"]} ∅))).
Proof.
  split; [reflexivity|].
  apply (getCacheFile_by_pod_name unit); reflexivity.
Defined.

(** ** getTmpFile and the retry loop *)

Lemma getTmpFile_panics_iff {C} (p : Pod C) key e :
  getTmpFile p key e = None <-> pod_Containers (Object p) = [].
Proof.
  unfold getTmpFile, PodExec.
  destruct (pod_Containers (Object p)) as [|c cs]; simpl; [tauto|].
  destruct (cs_Exec _ _ _ _ _ _) as [[err|[[stdout stderr] [err|]]] k'];
    try destruct (length stdout =? 0); split; discriminate.
Qed.

Lemma getTmpFile_env {C} (p : Pod C) key e r e' :
  getTmpFile p key e = Some (r, e') ->
  e_files e' = e_files e /\ e_stdout e' = e_stdout e /\ e_slept e' = e_slept e.
Proof.
  unfold getTmpFile.
  destruct (PodExec _ _ _ _ _) as [[[[stdout stderr] [err|]] k']|];
    try discriminate; try destruct (length stdout =? 0);
    intros H; inversion H; subst; auto.
Qed.

Lemma getTmpFile_success_value {C} (p : Pod C) key e value e' :
  getTmpFile p key e = Some ((value, None), e') -> value <> "".
Proof.
  unfold getTmpFile.
  destruct (PodExec _ _ _ _ _) as [[[[stdout stderr] [err|]] k']|];
    try discriminate.
  destruct (Nat.eqb_spec (length stdout) 0) as [E0|E0]; [discriminate|].
  rewrite read_limit. intros H; inversion H; subst.
  destruct stdout as [|c stdout]; [contradiction|].
  change tokenByteLimit with (S 4095). cbn [firstn string_of_list_ascii].
  discriminate.
Qed.

(** X14.  getTmpFile returns an error exactly when the string it returns is
    empty; it touches neither files, standard output nor the clock; and it
    panics exactly on a pod without containers. *)
Theorem getTmpFile_error_iff_empty :
  forall (C : Type) (p : Pod C) (key : string) (e : Env C),
    (getTmpFile p key e = None <-> pod_Containers (Object p) = []) /\
    (forall value err e',
        getTmpFile p key e = Some ((value, err), e') ->
        (err = None <-> value <> "") /\
        e_files e' = e_files e /\ e_stdout e' = e_stdout e /\
        e_slept e' = e_slept e).
Proof.
  intros C p key e. split; [apply getTmpFile_panics_iff|].
  intros value err e' H. split; [|eapply getTmpFile_env; eauto].
  destruct err as [msg|].
  - pose proof (getTmpFile_error_value _ _ _ _ _ _ H) as ->.
    split; [discriminate | congruence].
  - split; [intros _|reflexivity]. eapply getTmpFile_success_value; eauto.
Qed.

(** The pod's cache plays no part in [getTmpFile]. *)
Lemma getTmpFile_cache {C} (p p0 : Pod C) key e :
  Object p0 = Object p -> Client p0 = Client p ->
  getTmpFile p0 key e = getTmpFile p key e.
Proof. intros H1 H2. unfold getTmpFile. now rewrite H1, H2. Qed.

Lemma set_token_twice {C} key x v (p : Pod C) :
  set_token key v (set_token key x p) = set_token key v p.
Proof.
  unfold set_token, set_cache. simpl. now rewrite insert_insert_eq.
Qed.

Lemma retry_loop_succeeds {C} (p : Pod C) key j e value e' :
  succeeds_after p key j e value e' ->
  forall n err (p0 : Pod C),
    j < n -> Object p0 = Object p -> Client p0 = Client p ->
    retry_loop n key err p0 e = Some (None, set_token key value p0, e') /\
    e_slept e' = e_slept e + j /\ e_stdout e' = e_stdout e /\
    e_files e' = e_files e.
Proof.
  induction 1 as [e value e' HG | j e x msg e1 value e' HG Hrest IH];
    intros n err p0 Hn HO HC; destruct n as [|n]; try lia;
    rewrite retry_loop_S, (getTmpFile_cache p p0 key e HO HC), HG.
  - destruct (getTmpFile_env _ _ _ _ _ HG) as (H1 & H2 & H3).
    split; [reflexivity|]. rewrite H3. auto with arith.
  - destruct (getTmpFile_env _ _ _ _ _ HG) as (H1 & H2 & H3).
    destruct (IH n (Some msg) (set_token key x p0)) as (HR & Hs & Ho & Hf);
      [lia | exact HO | exact HC |].
    rewrite HR, set_token_twice. split; [reflexivity|].
    simpl in Hs, Ho, Hf. rewrite Hs, Ho, Hf, H1, H2, H3.
    split; [lia | auto].
Qed.

Lemma succeeds_after_value {C} (p : Pod C) key j e value e' :
  succeeds_after p key j e value e' -> value <> "".
Proof.
  induction 1 as [e value e' HG|]; [|assumption].
  eapply getTmpFile_success_value; eauto.
Qed.

(** X15.  The retry mode within its budget: when the first [j] attempts to
    read the file fail and the next one succeeds, with [j] below ten, the
    key ends up mapped to the contents read, [j] seconds have been slept,
    nothing is logged, and the contents are not empty. *)
Theorem retry_succeeds_within_budget :
  forall (C : Type) (p : Pod C) (key : string) (j : nat) (e e' : Env C)
         (value : string),
    succeeds_after p key j e value e' ->
    j < 10 ->
    fill_one false key p e = Some (set_token key value p, e') /\
    tokens (cache (set_token key value p)) !! key = Some value /\
    value <> "" /\
    e_slept e' = e_slept e + j /\ e_stdout e' = e_stdout e.
Proof.
  intros C p key j e e' value H Hj.
  destruct (retry_loop_succeeds p key j e value e' H 10 None p Hj eq_refl eq_refl)
    as (HR & Hs & Ho & _).
  unfold fill_one. rewrite HR.
  split; [reflexivity|]. split; [apply lookup_insert_eq|].
  split; [eapply succeeds_after_value; eauto | auto].
Qed.

(** The file appears at the sixth attempt. *)
Lemma retry_succeeds_within_budget_witness :
  fill_one false "token" (slow_pod 5) slowEnv
  = Some (set_token "token" "s3cr3t" (slow_pod 5), mkEnv 6 ∅ [] 5).
Proof.
  apply (retry_succeeds_within_budget nat (slow_pod 5) "token" 5 slowEnv
           (mkEnv 6 ∅ [] 5) "s3cr3t"); [|lia].
  repeat (eapply sa_later; [reflexivity|]). apply sa_now. reflexivity.
Defined.

Lemma retry_loop_fails {C} (p : Pod C) key n start e last e' :
  fails_in_a_row p key n start e last e' ->
  forall p0 : Pod C,
    Object p0 = Object p -> Client p0 = Client p ->
    retry_loop n key start p0 e
    = Some (last, match n with O => p0 | S _ => set_token key "" p0 end, e') /\
    e_slept e' = e_slept e + n /\ e_stdout e' = e_stdout e /\
    (0 < n -> last <> None).
Proof.
  induction 1 as [start e | n start e x msg e1 last e' HG Hrest IH];
    intros p0 HO HC.
  - simpl. split; [reflexivity|]. split; [lia|]. split; [reflexivity | lia].
  - rewrite retry_loop_S, (getTmpFile_cache p p0 key e HO HC), HG.
    pose proof (getTmpFile_error_value _ _ _ _ _ _ HG) as ->.
    destruct (getTmpFile_env _ _ _ _ _ HG) as (H1 & H2 & H3).
    destruct (IH (set_token key "" p0) HO HC) as (HR & Hs & Ho & Hl).
    rewrite HR. simpl in Hs, Ho. split; [|split; [lia|split; [congruence|]]].
    + destruct n; [reflexivity | now rewrite set_token_twice].
    + intros _. destruct n as [|n]; [|apply Hl; lia].
      inversion Hrest; subst. discriminate.
Qed.

(** X16.  The retry mode at the end of its budget: after ten failed
    attempts in a row the loop gives up, whatever an eleventh attempt would
    have read: the key is left mapped to the empty string, ten seconds have
    been slept, and the error of the tenth attempt is logged, once. *)
Theorem retry_gives_up_after_ten :
  forall (C : Type) (p : Pod C) (key : string) (e e' : Env C)
         (last : option string),
    fails_in_a_row p key 10 None e last e' ->
    exists msg,
      last = Some msg /\
      fill_one false key p e
      = Some (set_token key "" p,
              e_Printf ("Error while copying token " +:+ key +:+ " for pod "
                        +:+ pod_Name (Object p) +:+ ": " +:+ msg) e') /\
      e_slept e' = e_slept e + 10 /\ e_stdout e' = e_stdout e.
Proof.
  intros C p key e e' last H.
  destruct (retry_loop_fails p key 10 None e last e' H p eq_refl eq_refl)
    as (HR & Hs & Ho & Hl).
  destruct last as [msg|]; [|exfalso; apply Hl; [lia | reflexivity]].
  exists msg. unfold fill_one. rewrite HR. auto.
Qed.

(** The file would be there at the twenty-first attempt. *)
Lemma retry_gives_up_after_ten_witness :
  exists msg e',
    fill_one false "token" (slow_pod 20) slowEnv
    = Some (set_token "token" "" (slow_pod 20), e') /\
    e_slept e' = 10 /\ e_cluster e' = 10 /\
    e_stdout e' = ["Error while copying token token for pod jupyter: " +:+ msg].
Proof.
  destruct (retry_gives_up_after_ten nat (slow_pod 20) "token" slowEnv
              (mkEnv 10 ∅ [] 10) (Some "Empty response. Stderr: "))
    as (msg & Hl & HF & _).
  - repeat (eapply fr_more; [reflexivity|]). apply fr_none.
  - exists msg. eexists. split; [exact HF|]. inversion Hl; subst.
    split; [reflexivity|]. split; reflexivity.
Defined.

(** ** What fillAllTmpFiles leaves alone *)

Ltac csplit := repeat match goal with |- _ /\ _ => split end.

Lemma retry_loop_frame {C} n : forall key err (p : Pod C) e err' p' e',
  retry_loop n key err p e = Some (err', p', e') ->
  Object p' = Object p /\ Client p' = Client p /\
  otherResourceInfo (cache p') = otherResourceInfo (cache p) /\
  (forall k, k <> key -> tokens (cache p') !! k = tokens (cache p) !! k) /\
  e_files e' = e_files e /\ e_stdout e' = e_stdout e /\
  e_slept e <= e_slept e' <= e_slept e + n.
Proof.
  induction n as [|n IH]; intros key err p e err' p' e' H.
  - simpl in H. inversion H; subst. csplit; auto; lia.
  - rewrite retry_loop_S in H.
    destruct (getTmpFile p key e) as [[[value [msg|]] e1]|] eqn:HG;
      try discriminate;
      destruct (getTmpFile_env _ _ _ _ _ HG) as (H1 & H2 & H3).
    + apply IH in H. destruct H as (A & B & D & E & F & G & I).
      simpl in *. rewrite A, B, D, F, G, H1, H2.
      csplit; auto; try lia.
      intros k Hk. rewrite (E k Hk). now apply lookup_insert_ne.
    + inversion H; subst. simpl. rewrite H1, H2, H3.
      csplit; auto; try lia.
      intros k Hk. now apply lookup_insert_ne.
Qed.

Lemma fill_one_frame {C} oneTry key (p : Pod C) e p' e' :
  fill_one oneTry key p e = Some (p', e') ->
  Object p' = Object p /\ Client p' = Client p /\
  otherResourceInfo (cache p') = otherResourceInfo (cache p) /\
  (forall k, k <> key -> tokens (cache p') !! k = tokens (cache p) !! k) /\
  is_Some (tokens (cache p') !! key) /\
  e_files e' = e_files e /\
  e_slept e <= e_slept e' <= e_slept e + (if oneTry then 0 else 10).
Proof.
  unfold fill_one. destruct oneTry.
  - destruct (getTmpFile p key e) as [[[value err] e1]|] eqn:HG; [|discriminate].
    destruct (getTmpFile_env _ _ _ _ _ HG) as (H1 & H2 & H3).
    intros H.
    assert (p' = set_token key value p /\ e_files e' = e_files e1 /\
            e_slept e' = e_slept e1) as (-> & Hf & Hs)
      by (destruct err; inversion H; subst; auto).
    simpl. rewrite Hf, Hs, H1, H3. csplit; auto; try lia.
    + intros k Hk. now apply lookup_insert_ne.
    + rewrite lookup_insert_eq. eauto.
  - destruct (retry_loop 10 key None p e) as [[[err p1] e1]|] eqn:HR; [|discriminate].
    pose proof (retry_loop_stores 9 _ _ _ _ _ _ _ HR) as (value & Hv & _).
    apply retry_loop_frame in HR. destruct HR as (A & B & D & E & F & G & I).
    intros H.
    assert (p' = p1 /\ e_files e' = e_files e1 /\ e_slept e' = e_slept e1)
      as (-> & Hf & Hs) by (destruct err; inversion H; subst; auto).
    rewrite Hf, Hs. csplit; auto; try lia.
Qed.

Lemma fill_keys_frame {C} oneTry : forall keys (p : Pod C) e p' e',
  fill_keys oneTry keys p e = Some (p', e') ->
  Object p' = Object p /\ Client p' = Client p /\
  otherResourceInfo (cache p') = otherResourceInfo (cache p) /\
  (forall k, ~ In k keys -> tokens (cache p') !! k = tokens (cache p) !! k) /\
  (forall k, In k keys -> is_Some (tokens (cache p') !! k)) /\
  e_files e' = e_files e /\
  e_slept e <= e_slept e' <=
    e_slept e + (if oneTry then 0 else 10) * length keys.
Proof.
  induction keys as [|key keys IH]; intros p e p' e' H; simpl in H.
  - inversion H; subst. csplit; auto; try lia. intros k [].
  - destruct (fill_one oneTry key p e) as [[p1 e1]|] eqn:H1; [|discriminate].
    apply fill_one_frame in H1. destruct H1 as (A & B & D & E & F & G & I).
    apply IH in H. destruct H as (A' & B' & D' & E' & F' & G' & I').
    rewrite A', B', D', G', A, B, D, G. simpl length.
    csplit; auto; try lia.
    + intros k Hk. rewrite E' by (intros Hin; apply Hk; now right).
      apply E. intros ->. apply Hk. now left.
    + intros k [<-|Hin]; [|now apply F'].
      destruct (in_dec string_dec key keys) as [Hin|Hnin]; [now apply F'|].
      rewrite (E' key Hnin). exact F.
Qed.

(** X17.  What fillAllTmpFiles leaves alone and what it costs.  When it
    returns, the pod's object, client and otherResourceInfo are as before
    and so are the files; the tokens of keys that are not marked for
    extraction are as before, and every marked key is present; in the
    one-try mode no time is slept, in the retry mode at most ten seconds per
    marked key. *)
Theorem fillAllTmpFiles_frame :
  forall (C : Type) (oneTry : bool) (p p' : Pod C) (e e' : Env C),
    fillAllTmpFiles oneTry p e = Some (p', e') ->
    Object p' = Object p /\ Client p' = Client p /\
    otherResourceInfo (cache p') = otherResourceInfo (cache p) /\
    (forall k, ~ In k (toCopy (pod_Annotations (Object p))) ->
               tokens (cache p') !! k = tokens (cache p) !! k) /\
    (forall k, In k (toCopy (pod_Annotations (Object p))) ->
               is_Some (tokens (cache p') !! k)) /\
    e_files e' = e_files e /\
    e_slept e <= e_slept e' <=
      e_slept e + (if oneTry then 0 else 10)
                  * length (toCopy (pod_Annotations (Object p))).
Proof. intros C oneTry p p' e e' H. now apply fill_keys_frame in H. Qed.

Lemma fillAllTmpFiles_frame_witness :
  exists p' e',
    fillAllTmpFiles false
      (jupyter exec_empty (mkPodCache {["description" := "kept"]}
                                      {["sshPort" := "x"]}))
      emptyEnv = Some (p', e') /\
    tokens (cache p') !! "description" = Some "kept" /\
    otherResourceInfo (cache p') !! "sshPort" = Some "x" /\
    e_slept e' <= 10.
Proof.
  destruct (fillAllTmpFiles false
              (jupyter exec_empty (mkPodCache {["description" := "kept"]}
                                              {["sshPort" := "x"]}))
              emptyEnv) as [[p' e']|] eqn:E; [|vm_compute in E; discriminate E].
  destruct (fillAllTmpFiles_frame unit false _ p' _ e' E)
    as (_ & _ & HO & HT & _ & _ & HS).
  exists p', e'. split; [reflexivity|]. split; [|split].
  - rewrite HT; [reflexivity|]. simpl. intros [H|[]]. discriminate H.
  - now rewrite HO.
  - simpl in HS. lia.
Defined.

(** ** When fillAllTmpFiles panics *)

Lemma retry_loop_None {C} n : forall key err (p : Pod C) e,
  retry_loop (S n) key err p e = None <-> pod_Containers (Object p) = [].
Proof.
  induction n as [|n IH]; intros key err p e; rewrite retry_loop_S;
    pose proof (getTmpFile_panics_iff p key e) as HP;
    destruct (getTmpFile p key e) as [[[value [msg|]] e1]|] eqn:HG;
    try tauto;
    try (split; [discriminate | intros Hc; apply HP in Hc; discriminate Hc]).
  rewrite IH. simpl. reflexivity.
Qed.

Lemma fill_one_None {C} oneTry key (p : Pod C) e :
  fill_one oneTry key p e = None <-> pod_Containers (Object p) = [].
Proof.
  unfold fill_one. destruct oneTry.
  - rewrite <- (getTmpFile_panics_iff p key e).
    destruct (getTmpFile p key e) as [[[value [msg|]] e1]|];
      split; try discriminate; auto.
  - rewrite <- (retry_loop_None 9 key None p e).
    destruct (retry_loop 10 key None p e) as [[[[msg|] p1] e1]|];
      split; try discriminate; auto.
Qed.

Lemma fill_keys_Some {C} oneTry : forall keys (p : Pod C) e,
  pod_Containers (Object p) <> [] ->
  fill_keys oneTry keys p e <> None.
Proof.
  induction keys as [|key keys IH]; intros p e Hc; simpl; [discriminate|].
  destruct (fill_one oneTry key p e) as [[p1 e1]|] eqn:H1.
  - apply IH. apply fill_one_frame in H1. destruct H1 as (A & _).
    now rewrite A.
  - apply fill_one_None in H1. contradiction.
Qed.

(** X18.  fillAllTmpFiles panics exactly on a pod that has no container
    and at least one annotation marked for extraction (the exec call indexes
    the first container); without a marked annotation it does nothing at
    all: no exec call, no line, no sleep. *)
Theorem fillAllTmpFiles_panics_iff :
  forall (C : Type) (oneTry : bool) (p : Pod C) (e : Env C),
    (fillAllTmpFiles oneTry p e = None <->
     pod_Containers (Object p) = [] /\
     toCopy (pod_Annotations (Object p)) <> []) /\
    (toCopy (pod_Annotations (Object p)) = [] ->
     fillAllTmpFiles oneTry p e = Some (p, e)).
Proof.
  intros C oneTry p e. unfold fillAllTmpFiles. split.
  - split.
    + intros H. split.
      * destruct (pod_Containers (Object p)) eqn:Hc; [reflexivity|].
        exfalso. refine (fill_keys_Some oneTry _ p e _ H).
        rewrite Hc. discriminate.
      * intros Hk. rewrite Hk in H. discriminate.
    + intros [Hc Hk].
      destruct (toCopy (pod_Annotations (Object p))) as [|key keys];
        [contradiction|].
      simpl. apply (fill_one_None oneTry key p e) in Hc. now rewrite Hc.
  - intros ->. reflexivity.
Qed.

(** ** getSshPort: when a port is found *)

Lemma ports_loop_complete ports :
  ports_loop ports 0%Z <> 0%Z ->
  exists ppre portEntry ppost,
    ports = ppre ++ portEntry :: ppost /\
    Forall (fun q => sp_TargetPort q <> FromInt 22) ppre /\
    sp_TargetPort portEntry = FromInt 22 /\
    sp_NodePort portEntry = ports_loop ports 0%Z.
Proof.
  induction ports as [|q ports IH]; simpl; [congruence|].
  destruct (IntOrString_eqb (sp_TargetPort q) (FromInt 22)) eqn:E.
  - intros _. apply IntOrString_eqb_eq in E.
    exists [], q, ports. auto.
  - intros H. destruct (IH H) as (ppre & portEntry & ppost & -> & Hp & Ht & Hn).
    exists (q :: ppre), portEntry, ppost. split; [reflexivity|].
    split; [|auto]. constructor; [|exact Hp].
    intros Hq. apply IntOrString_eqb_eq in Hq. congruence.
Qed.

Lemma services_loop_complete podName items :
  services_loop podName items 0%Z <> 0%Z ->
  ssh_port_found podName items (services_loop podName items 0%Z).
Proof.
  induction items as [|s items IH]; simpl; [congruence|].
  destruct (String.eqb (svc_Name s) (podName +:+ "-ssh")) eqn:E.
  - intros H. apply String.eqb_eq in E.
    destruct (ports_loop_complete _ H)
      as (ppre & portEntry & ppost & Hports & Hp & Ht & Hn).
    exists [], s, items, ppre, portEntry, ppost. simpl. auto 10.
  - intros H.
    destruct (IH H) as (pre & service & post & ppre & portEntry & ppost &
                        -> & Hpre & Hname & Hports & Hppre & Ht & Hn).
    exists (s :: pre), service, post, ppre, portEntry, ppost.
    split; [reflexivity|]. split; [|auto 10].
    constructor; [|exact Hpre]. intros Hs. apply String.eqb_neq in E. contradiction.
Qed.

(** X19.  getSshPort, once the services are listed: it succeeds exactly
    when the first service named <pod>-ssh has a port entry that targets the
    integer 22 and the first such entry has a node port other than 0; in
    every other case the value is empty and the error is
    "Ssh service nodePort not found".  The listing's error, if any, is
    passed through unchanged. *)
Theorem getSshPort_success_iff_found :
  forall (C : Type) (p : Pod C) (e : Env C) (items : list Service) (k' : C),
    Pod_ListServices p (e_cluster e) = (inl items, k') ->
    (snd (fst (getSshPort p e)) = None <->
     exists n, n <> 0%Z /\ ssh_port_found (pod_Name (Object p)) items n) /\
    (snd (fst (getSshPort p e)) <> None ->
     getSshPort p e
     = (("", Some "Ssh service nodePort not found"), set_cluster k' e)).
Proof.
  intros C p e items k' HL. unfold getSshPort. rewrite HL.
  destruct (Z.eqb_spec (services_loop (pod_Name (Object p)) items 0%Z) 0%Z)
    as [H0|H0]; simpl.
  - split; [|reflexivity]. split; [discriminate|].
    intros (n & Hn & Hf). apply services_loop_found in Hf. congruence.
  - split; [|congruence]. split; [|reflexivity].
    intros _. eexists. split; [exact H0|].
    now apply services_loop_complete.
Qed.

Lemma getSshPort_success_iff_found_witness :
  exists n, n <> 0%Z /\
    ssh_port_found "jupyter"
      [mkService "jupyter-web" [mkServicePort (FromInt 80) 30080];
       mkService "jupyter-ssh" [mkServicePort (FromInt 80) 30081;
                                 mkServicePort (FromInt 22) 30022]] n.
Proof.
  apply (getSshPort_success_iff_found unit (jupyter exec_fails emptyCache)
           emptyEnv _ tt eq_refl).
  reflexivity.
Defined.

(** X20.  Only the first service named <pod>-ssh counts: when none of its
    port entries targets the integer 22, getSshPort reports that no port was
    found, whatever the services listed after it offer. *)
Theorem getSshPort_first_ssh_service_decides :
  forall (C : Type) (p : Pod C) (e : Env C)
         (pre post : list Service) (service : Service) (k' : C),
    Pod_ListServices p (e_cluster e) = (inl (pre ++ service :: post), k') ->
    Forall (fun s => svc_Name s <> pod_Name (Object p) +:+ "-ssh") pre ->
    svc_Name service = pod_Name (Object p) +:+ "-ssh" ->
    Forall (fun q => sp_TargetPort q <> FromInt 22) (svc_Ports service) ->
    getSshPort p e
    = (("", Some "Ssh service nodePort not found"), set_cluster k' e).
Proof.
  intros C p e pre post service k' HL Hpre Hname Hports.
  unfold getSshPort. rewrite HL.
  assert (services_loop (pod_Name (Object p)) (pre ++ service :: post) 0%Z
          = 0%Z) as ->; [|reflexivity].
  clear HL. induction Hpre as [|s l Hs Hl IH]; simpl.
  - rewrite Hname, String.eqb_refl.
    induction Hports as [|q ports Hq Hp IHp]; simpl; [reflexivity|].
    destruct (IntOrString_eqb (sp_TargetPort q) (FromInt 22)) eqn:E;
      [|exact IHp].
    apply IntOrString_eqb_eq in E. contradiction.
  - destruct (String.eqb (svc_Name s) (pod_Name (Object p) +:+ "-ssh")) eqn:E;
      [|exact IH].
    apply String.eqb_eq in E. contradiction.
Qed.

(** The second service named jupyter-ssh offers node port 30022 for
    target port 22; the first one, whose target is the string "22", hides
    it. *)
Lemma getSshPort_first_ssh_service_decides_witness :
  getSshPort (jupyter shadow_plane emptyCache) emptyEnv
  = (("", Some "Ssh service nodePort not found"), emptyEnv).
Proof.
  apply (getSshPort_first_ssh_service_decides unit
           (jupyter shadow_plane emptyCache) emptyEnv
           [mkService "jupyter-web" [mkServicePort (FromInt 80) 30080]]
           [mkService "jupyter-ssh" [mkServicePort (FromInt 22) 30022]]
           (mkService "jupyter-ssh" [mkServicePort (mkIntOrString 1 0 "22") 30021])
           tt eq_refl).
  - repeat constructor. discriminate.
  - reflexivity.
  - repeat constructor. discriminate.
Defined.

(** ** What fillOtherResourceInfo leaves alone *)

Lemma string_of_int32_not_empty r : string_of_int32 r <> "".
Proof.
  unfold string_of_int32.
  destruct (encoderune_head r) as (b & rest & -> & _). discriminate.
Qed.

Lemma getSshPort_env {C} (p : Pod C) e :
  e_files (snd (getSshPort p e)) = e_files e /\
  e_stdout (snd (getSshPort p e)) = e_stdout e /\
  e_slept (snd (getSshPort p e)) = e_slept e /\
  (snd (fst (getSshPort p e)) = None -> fst (fst (getSshPort p e)) <> "").
Proof.
  unfold getSshPort.
  destruct (Pod_ListServices p (e_cluster e)) as [[items|err] k'];
    [destruct (Z.eqb _ 0)|]; simpl; csplit; auto; try discriminate.
  intros _. apply string_of_int32_not_empty.
Qed.

(** X21.  What fillOtherResourceInfo leaves alone.  The pod's object,
    client and tokens, every otherResourceInfo key other than "sshPort", the
    files and the time slept are as before.  On a pod none of whose
    containers listens on 22 nothing changes at all.  Otherwise either the
    cache is as before and exactly one line is logged, or "sshPort" is set
    to a non-empty string and nothing is logged. *)
Theorem fillOtherResourceInfo_frame :
  forall (C : Type) (p : Pod C) (e : Env C),
    let p' := fst (fillOtherResourceInfo p e) in
    let e' := snd (fillOtherResourceInfo p e) in
    Object p' = Object p /\ Client p' = Client p /\
    tokens (cache p') = tokens (cache p) /\
    (forall k, k <> "sshPort" ->
               otherResourceInfo (cache p') !! k
               = otherResourceInfo (cache p) !! k) /\
    e_files e' = e_files e /\ e_slept e' = e_slept e /\
    (needsSshService p = false -> p' = p /\ e' = e) /\
    ((p' = p /\ exists line, e_stdout e' = e_stdout e ++ [line]) \/
     (e_stdout e' = e_stdout e /\
      (needsSshService p = false /\ p' = p \/
       exists v, v <> "" /\ p' = set_otherResourceInfo "sshPort" v p))).
Proof.
  intros C p e. unfold fillOtherResourceInfo.
  destruct (needsSshService p).
  - destruct (getSshPort_env p e) as (Hf & Ho & Hs & Hv).
    destruct (getSshPort p e) as [[v [err|]] e1]; simpl in *.
    + csplit; auto; try discriminate. left. split; [reflexivity|].
      rewrite Ho. eauto.
    + csplit; auto; try discriminate.
      * intros k Hk. now apply lookup_insert_ne.
      * right. split; [exact Ho|]. right. exists v. auto.
  - simpl. csplit; auto.
Qed.

End ManagedMore.
